(** * Banker's algorithm ledger (yinhangjia.py): shallow embedding and
    verification of its safety check and request/release transitions. *)

From stdpp Require Import base numbers list relations strings pretty.

Local Open Scope Z_scope.

(** ** Python runtime: exceptions, results, list indexing *)

(** The two exceptions the ledger can throw: the explicit [ValueError] of
    [request]/[release] and the [IndexError] of an out-of-range subscript. *)
Inductive exn : Type :=
| ValueError
| IndexError.

(** Outcome of running a piece of the program.  [OutOfFuel] is not a Python
    outcome: it marks a bounded unrolling of the [while] loop that was cut
    short (shown below never to happen). *)
Inductive result (A : Type) : Type :=
| Ok (a : A)
| Raise (e : exn)
| OutOfFuel.

Arguments Ok {A} a.
Arguments Raise {A} e.
Arguments OutOfFuel {A}.

Definition bind {A B} (r : result A) (k : A → result B) : result B :=
  match r with
  | Ok a => k a
  | Raise e => Raise e
  | OutOfFuel => OutOfFuel
  end.

Notation "x <- r ;; k" := (bind r (λ x, k))
  (at level 100, r at next level, right associativity).

(** A computation instrumented with the number of [safety_check] calls it
    has made. *)
Definition traced (A : Type) : Type := (nat * result A)%type.

Definition bind_traced {A B} (c : traced A) (k : A → traced B) : traced B :=
  match c.2 with
  | Ok a => ((c.1 + (k a).1)%nat, (k a).2)
  | Raise e => (c.1, Raise e)
  | OutOfFuel => (c.1, OutOfFuel)
  end.

Notation "x <~ c ;; k" := (bind_traced c (λ x, k))
  (at level 100, c at next level, right associativity).

Definition lift {A} (r : result A) : traced A := (0%nat, r).

Definition tick : traced unit := (1%nat, Ok ()).

(** [range(k)]: empty when [k <= 0]. *)
Definition range (k : Z) : list Z := seqZ 0 k.

(** Position denoted by a Python subscript [i] of a list (negative
    subscripts count from the end), if any. *)
Definition norm_index {A} (l : list A) (i : Z) : option nat :=
  let k := if bool_decide (i < 0) then i + Z.of_nat (length l) else i in
  if bool_decide (0 ≤ k < Z.of_nat (length l)) then Some (Z.to_nat k) else None.

(** [l[i]] *)
Definition getitem {A} (l : list A) (i : Z) : result A :=
  match norm_index l i with
  | Some k =>
      match l !! k with
      | Some x => Ok x
      | None => Raise IndexError
      end
  | None => Raise IndexError
  end.

(** [l[i] = x] *)
Definition setitem {A} (l : list A) (i : Z) (x : A) : result (list A) :=
  match norm_index l i with
  | Some k => Ok (<[k := x]> l)
  | None => Raise IndexError
  end.

(** [for i in l: st = body(i, st)] *)
Fixpoint for_each {S} (body : Z → S → result S) (l : list Z) (st : S)
  : result S :=
  match l with
  | [] => Ok st
  | i :: l' => st' <- body i st;; for_each body l' st'
  end.

(** [[f(i) for i in l]] *)
Fixpoint comprehension {A} (f : Z → result A) (l : list Z) : result (list A) :=
  match l with
  | [] => Ok []
  | i :: l' => x <- f i;; xs <- comprehension f l';; Ok (x :: xs)
  end.

(** ** Vector helpers (lines 8-15) *)

Definition vec_le (a b : list Z) : bool :=
  forallb (λ p, p.1 <=? p.2) (zip a b).

Definition vec_add (a b : list Z) : list Z := zip_with Z.add a b.

Definition vec_sub (a b : list Z) : list Z := zip_with Z.sub a b.

(** ** The ledger (lines 23-138) *)

Record BankerSystem : Type := mkBankerSystem {
  n : Z;
  m : Z;
  available : list Z;
  max_need : list (list Z);
  allocation : list (list Z)
}.

(** [need()] (line 32) *)
Definition need (s : BankerSystem) : result (list (list Z)) :=
  comprehension (λ i,
    comprehension (λ j,
      mrow <- getitem (max_need s) i;;
      x <- getitem mrow j;;
      arow <- getitem (allocation s) i;;
      y <- getitem arow j;;
      Ok (x - y))
    (range (m s)))
  (range (n s)).

(** Local variables of [safety_check]. *)
Record scan : Type := mkScan {
  work : list Z;
  finish : list bool;
  seq : list Z;
  changed : bool
}.

(** Body of the [for] loop (lines 48-54); [and] is short-circuit. *)
Definition visit (s : BankerSystem) (needM : list (list Z)) (i : Z) (st : scan)
  : result scan :=
  f <- getitem (finish st) i;;
  if f then Ok st else
  nd <- getitem needM i;;
  if vec_le nd (work st) then
    row <- getitem (allocation s) i;;
    fin <- setitem (finish st) i true;;
    Ok {| work := vec_add (work st) row; finish := fin;
            seq := seq st ++ [i]; changed := true |}
  else Ok st.

(** One iteration of the [while] loop (lines 46-54). *)
Definition sweep (s : BankerSystem) (needM : list (list Z)) (st : scan)
  : result scan :=
  for_each (visit s needM) (range (n s))
    {| work := work st; finish := finish st; seq := seq st; changed := false |}.

(** [while changed: ...] (lines 45-54), unrolled at most [fuel] times. *)
Fixpoint while_changed (fuel : nat) (s : BankerSystem) (needM : list (list Z))
    (st : scan) : result scan :=
  if changed st then
    match fuel with
    | O => OutOfFuel
    | S fuel' => st' <- sweep s needM st;; while_changed fuel' s needM st'
    end
  else Ok st.

(** Body of [safety_check] for a given unrolling bound. *)
Definition safety_run (fuel : nat) (s : BankerSystem)
  : result (bool * list Z) :=
  needM <- need s;;
  st <- while_changed fuel s needM
         {| work := available s;
            finish := replicate (Z.to_nat (n s)) false;
            seq := [];
            changed := true |};;
  Ok (forallb id (finish st), seq st).

(** [safety_check] (lines 34-64).  Console output is not modelled, so
    [verbose] has no effect here.  Every productive sweep finishes a
    process, hence [n + 1] sweeps are enough (lemma [safety_run_fuel]). *)
Definition safety_check (s : BankerSystem) (verbose : bool)
  : traced (bool * list Z) :=
  _ <~ tick;; lift (safety_run (S (Z.to_nat (n s))) s).

(** The [return] statement by which [request] leaves (lines 81, 87, 109,
    113); the Python value returned is [granted]. *)
Inductive verdict : Type :=
| ExceedsNeed
| ExceedsAvailable
| Granted
| UnsafeAfterSpeculation.

Definition granted (v : verdict) : bool :=
  match v with
  | Granted => true
  | _ => false
  end.

(** The subscripts evaluated for the report printed after a trial
    allocation (lines 99-100) and after a release (lines 136-137):
    [allocation[pid]] and [need()[pid]]. *)
Definition printed_row (s : BankerSystem) (pid : Z) : result unit :=
  _ <- getitem (allocation s) pid;;
  nd <- need s;;
  _ <- getitem nd pid;;
  Ok ().

(** [request] (lines 66-113), returning the exit taken and the ledger after
    the call.  With [verbose] the expressions printed at lines 98-100 are
    evaluated. *)
Definition request_at (s : BankerSystem) (pid : Z) (req : list Z)
    (verbose : bool) : traced (verdict * BankerSystem) :=
  if bool_decide (pid < 0 ∨ pid >= n s) then lift (Raise ValueError) else
  if bool_decide (Z.of_nat (length req) ≠ m s) then lift (Raise ValueError) else
  needM <~ lift (need s);;
  need_pid <~ lift (getitem needM pid);;
  if negb (vec_le req need_pid) then lift (Ok (ExceedsNeed, s)) else
  if negb (vec_le req (available s)) then lift (Ok (ExceedsAvailable, s)) else
  let avail2 := vec_sub (available s) req in
  row <~ lift (getitem (allocation s) pid);;
  alloc2 <~ lift (setitem (allocation s) pid (vec_add row req));;
  let tmp := {| n := n s; m := m s; available := avail2;
                max_need := max_need s; allocation := alloc2 |} in
  _ <~ lift (if verbose then printed_row tmp pid else Ok ());;
  r <~ safety_check tmp verbose;;
  if r.1 then
    lift (Ok (Granted,
              {| n := n s; m := m s; available := avail2;
                 max_need := max_need s; allocation := alloc2 |}))
  else lift (Ok (UnsafeAfterSpeculation, s)).

Definition request (s : BankerSystem) (pid : Z) (req : list Z)
    (verbose : bool) : traced (bool * BankerSystem) :=
  r <~ request_at s pid req verbose;; lift (Ok (granted r.1, r.2)).

(** [release] (lines 115-138).  With [verbose] the expressions printed at
    lines 135-137 are evaluated. *)
Definition release (s : BankerSystem) (pid : Z) (rel : list Z)
    (verbose : bool) : traced (bool * BankerSystem) :=
  if bool_decide (pid < 0 ∨ pid >= n s) then lift (Raise ValueError) else
  if bool_decide (Z.of_nat (length rel) ≠ m s) then lift (Raise ValueError) else
  row <~ lift (getitem (allocation s) pid);;
  if negb (vec_le rel row) then lift (Ok (false, s)) else
  row <~ lift (getitem (allocation s) pid);;
  alloc' <~ lift (setitem (allocation s) pid (vec_sub row rel));;
  let s' := {| n := n s; m := m s; available := vec_add (available s) rel;
               max_need := max_need s; allocation := alloc' |} in
  _ <~ lift (if verbose then printed_row s' pid else Ok ());;
  lift (Ok (true, s')).

(** Number of processes not yet marked finished. *)
Definition unfinished (l : list bool) : nat := length (List.filter negb l).

(** Effect of (part of) a sweep on the flags: nothing, or [changed] is
    set and fewer processes are unfinished; exceptions aside. *)
Definition progress (st : scan) (r : result scan) : Prop :=
  match r with
  | Ok st' =>
      st' = st ∨
      (changed st' = true ∧
       (unfinished (finish st') < unfinished (finish st))%nat)
  | Raise _ => True
  | OutOfFuel => False
  end.

(** A call ends by an exception / by a [return]. *)
Definition raises {A} (c : traced A) : Prop := ∃ e, c.2 = Raise e.

Definition returns {A} (c : traced A) : Prop := ∃ a, c.2 = Ok a.

(** The ledger [tmp] built at lines 90-94, which a granted request commits
    (lines 105-106). *)
Definition speculated (s : BankerSystem) (pid : Z) (req : list Z)
  : BankerSystem :=
  {| n := n s; m := m s;
     available := vec_sub (available s) req;
     max_need := max_need s;
     allocation :=
       <[Z.to_nat pid := vec_add (allocation s !!! Z.to_nat pid) req]>
         (allocation s) |}.

(** The ledger after the assignments of lines 130-131. *)
Definition released (s : BankerSystem) (pid : Z) (rel : list Z)
  : BankerSystem :=
  {| n := n s; m := m s;
     available := vec_add (available s) rel;
     max_need := max_need s;
     allocation :=
       <[Z.to_nat pid := vec_sub (allocation s !!! Z.to_nat pid) rel]>
         (allocation s) |}.

(** ** Scenario A of the specification *)

Definition scenario_A : BankerSystem :=
  {| n := 5; m := 3;
     available := [3; 3; 2];
     max_need := [[7; 5; 3]; [3; 2; 2]; [9; 0; 2]; [2; 2; 2]; [4; 3; 3]];
     allocation := [[0; 1; 0]; [2; 0; 0]; [3; 0; 2]; [2; 1; 1]; [0; 0; 2]] |}.

(** ** Reading the ledger *)

(** Entries of the matrices and of [Available] (read inside the stored
    dimensions only), and [Need = Max - Allocation]. *)
Definition avail_at (s : BankerSystem) (j : nat) : Z := available s !!! j.

Definition alloc_at (s : BankerSystem) (i : Z) (j : nat) : Z :=
  (allocation s !!! Z.to_nat i) !!! j.

Definition max_at (s : BankerSystem) (i : Z) (j : nat) : Z :=
  (max_need s !!! Z.to_nat i) !!! j.

Definition need_at (s : BankerSystem) (i : Z) (j : nat) : Z :=
  max_at s i j - alloc_at s i j.

(** Dimensions of a ledger: [n] rows of [m] entries, [m] available counts. *)
Record wf (s : BankerSystem) : Prop := mkWf {
  wf_n : 0 ≤ n s;
  wf_m : 0 ≤ m s;
  wf_available : length (available s) = Z.to_nat (m s);
  wf_max_rows : length (max_need s) = Z.to_nat (n s);
  wf_alloc_rows : length (allocation s) = Z.to_nat (n s);
  wf_max_cols : Forall (λ row, length row = Z.to_nat (m s)) (max_need s);
  wf_alloc_cols : Forall (λ row, length row = Z.to_nat (m s)) (allocation s)
}.

(** Data-model invariants I1 and I2. *)
Definition I1 (s : BankerSystem) : Prop :=
  ∀ i j, 0 ≤ i < n s → (j < Z.to_nat (m s))%nat →
    0 ≤ alloc_at s i j ≤ max_at s i j.

Definition I2 (s : BankerSystem) : Prop := Forall (Z.le 0) (available s).

(** Allocation never negative (the lower half of I1). *)
Definition alloc_nonneg (s : BankerSystem) : Prop :=
  Forall (Forall (Z.le 0)) (allocation s).

(** [sum(f(i) for i in l)] *)
Definition sumZ (f : Z → Z) (l : list Z) : Z := foldr (λ i acc, f i + acc) 0 l.

(** Units of class [j] in the system: free plus held by the [n] processes. *)
Definition total (s : BankerSystem) (j : nat) : Z :=
  avail_at s j + sumZ (λ i, alloc_at s i j) (range (n s)).

(** [work] of the safety algorithm after the processes of [p] finished. *)
Definition work_at (s : BankerSystem) (p : list Z) (j : nat) : Z :=
  avail_at s j + sumZ (λ i, alloc_at s i j) p.

(** Process [i] can run to completion once the processes of [p] finished. *)
Definition fits (s : BankerSystem) (p : list Z) (i : Z) : Prop :=
  ∀ j, (j < Z.to_nat (m s))%nat → need_at s i j ≤ work_at s p j.

(** Completion orders: each process is new, in range, and fits the work
    vector left by its predecessors. *)
Inductive completion (s : BankerSystem) : list Z → Prop :=
| completion_nil : completion s []
| completion_snoc p i :
    completion s p → 0 ≤ i < n s → i ∉ p → fits s p i →
    completion s (p ++ [i]).

(** No further process can be appended to [p]. *)
Definition stuck (s : BankerSystem) (p : list Z) : Prop :=
  ∀ i, 0 ≤ i < n s → i ∉ p → ¬ fits s p i.

(** The matrix [need()] returns on a well-dimensioned ledger. *)
Definition needM (s : BankerSystem) : list (list Z) :=
  zip_with vec_sub (max_need s) (allocation s).

(** State of the safety algorithm before the first scan. *)
Definition scan0 (s : BankerSystem) : scan :=
  {| work := available s;
     finish := replicate (Z.to_nat (n s)) false;
     seq := [];
     changed := true |}.

(** What the local variables of the safety algorithm mean: [work] is
    [Available] plus the allocations of the finished processes, [finish]
    flags exactly the members of [seq], and [seq] is a completion order. *)
Record scan_inv (s : BankerSystem) (st : scan) : Prop := mkScanInv {
  inv_work_len : length (work st) = Z.to_nat (m s);
  inv_work : ∀ j, (j < Z.to_nat (m s))%nat →
    work st !!! j = work_at s (seq st) j;
  inv_finish_len : length (finish st) = Z.to_nat (n s);
  inv_finish : ∀ i, 0 ≤ i < n s →
    finish st !!! Z.to_nat i = true ↔ i ∈ seq st;
  inv_completion : completion s (seq st)
}.

(** [s'] is [s] after [d j] units of every class [j] moved from
    [Available] to the row of process [pid] (back, when [d j] is negative). *)
Record transfer (s s' : BankerSystem) (pid : Z) (d : nat → Z) : Prop :=
  mkTransfer {
  tr_n : n s' = n s;
  tr_m : m s' = m s;
  tr_max : max_need s' = max_need s;
  tr_avail : ∀ j, (j < Z.to_nat (m s))%nat →
    avail_at s' j = avail_at s j - d j;
  tr_alloc : ∀ i j, 0 ≤ i < n s → (j < Z.to_nat (m s))%nat →
    alloc_at s' i j = alloc_at s i j + (if decide (i = pid) then d j else 0)
}.

(** ** The restart-from-the-top safety algorithm of the specification *)

(** Reference algorithm, in the words of the specification (section 4.1,
    isSafe, step 2): process [i] is unfinished and [Need[i] <= work]. *)
Definition ready (s : BankerSystem) (st : scan) (i : Z) : bool :=
  negb (finish st !!! Z.to_nat i)
  && vec_le (vec_sub (max_need s !!! Z.to_nat i) (allocation s !!! Z.to_nat i))
            (work st).

(** Reference algorithm (step 2): mark [i] finished, set
    [work := work + Allocation[i]] and append [i] to the sequence. *)
Definition advance (s : BankerSystem) (st : scan) (i : Z) : scan :=
  {| work := vec_add (work st) (allocation s !!! Z.to_nat i);
     finish := <[Z.to_nat i := true]> (finish st);
     seq := seq st ++ [i];
     changed := true |}.

(** Reference algorithm (steps 2 and 3): take the first ready process in
    index order, complete it, and scan again from index 0; stop when a full
    scan finds none.  At most [n] processes can be completed, which bounds
    the recursion. *)
Fixpoint restart_scan (fuel : nat) (s : BankerSystem) (st : scan) : result scan :=
  match List.find (ready s st) (range (n s)) with
  | None => Ok st
  | Some i =>
      match fuel with
      | O => OutOfFuel
      | S fuel' =>
          restart_scan fuel' s (advance s st i)
      end
  end.

(** Reference algorithm (steps 1 and 4): start from [Available] with no
    process finished; safe iff all are finished at the end. *)
Definition isSafe_restart (s : BankerSystem) : result (bool * list Z) :=
  st <- restart_scan (Z.to_nat (n s)) s
          {| work := available s;
             finish := replicate (Z.to_nat (n s)) false;
             seq := [];
             changed := true |};;
  Ok (forallb id (finish st), seq st).

(** The flags of the safety algorithm mark exactly the members of its
    sequence, which has no duplicates (no assumption on the ledger). *)
Definition flags_match (n0 : Z) (st : scan) : Prop :=
  length (finish st) = Z.to_nat n0 ∧ NoDup (seq st) ∧
  ∀ i, i ∈ seq st ↔ 0 ≤ i < n0 ∧ finish st !! Z.to_nat i = Some true.

(** ** Runs of the ledger *)

(** A call of one of the two transitions. *)
Inductive call : Type :=
| Req (pid : Z) (v : list Z)
| Rel (pid : Z) (v : list Z).

Definition call_vector (c : call) : list Z :=
  match c with
  | Req _ v => v
  | Rel _ v => v
  end.

Definition perform (s : BankerSystem) (c : call) (verbose : bool)
  : traced (bool * BankerSystem) :=
  match c with
  | Req pid v => request s pid v verbose
  | Rel pid v => release s pid v verbose
  end.

(** [s'] is the ledger after one call that returned, made with a vector
    without negative entries (the only ones the command loop lets through,
    lines 226 and 236). *)
Definition step (s s' : BankerSystem) : Prop :=
  ∃ c verbose k b,
    Forall (Z.le 0) (call_vector c) ∧ perform s c verbose = (k, Ok (b, s')).

(** The safety check answers true on [s]. *)
Definition safe (s : BankerSystem) : Prop :=
  ∃ sq, safety_check s false = (1%nat, Ok (true, sq)).

(** ** Console layer *)

(** [k] spaces. *)
Fixpoint spaces (k : nat) : string :=
  match k with
  | O => EmptyString
  | S k' => " " +:+ spaces k'
  end.

(** [f'{x:>3d}'] (line 18): the decimal digits of [x], with a minus sign
    when negative, padded with spaces on the left to three characters. *)
Definition fmt_int (x : Z) : string :=
  spaces (3 - String.length (pretty x)) +:+ pretty x.

(** [fmt_vec] (lines 17-18) *)
Definition fmt_vec (v : list Z) : string :=
  "[" +:+ String.concat " " (fmt_int <$> v) +:+ "]".

(** The line feed. *)
Definition newline : string := String (Ascii.ascii_of_nat 10) EmptyString.

(** [fmt_mat] (lines 20-21) *)
Definition fmt_mat (mat : list (list Z)) : string :=
  String.concat newline ((λ row, "  " +:+ fmt_vec row) <$> mat).

(** The start-up check of [main] (lines 191-194): [ValueError] unless
    every Allocation row is below its Max row. *)
Definition check_initial (n0 : Z) (allocation0 max_need0 : list (list Z))
  : result unit :=
  for_each (λ i _,
      arow <- getitem allocation0 i;;
      mrow <- getitem max_need0 i;;
      if negb (vec_le arow mrow) then Raise ValueError else Ok ())
    (range n0) ().

(** [[f(x) for x in l]] over any list. *)
Fixpoint collect {A B} (f : A → result B) (l : list A) : result (list B) :=
  match l with
  | [] => Ok []
  | x :: l' => y <- f x;; ys <- collect f l';; Ok (y :: ys)
  end.

(** What one turn of the command loop of [main] decides to do. *)
Inductive action : Type :=
| Quit
| Show
| Safe
| Call (c : call)
| Nothing.

Section command_loop.
(** Python's [int] on a token and [str.lower], taken as given. *)
Context (int_of : string → result Z) (lower : string → string).

(** The arguments of a [req] or [rel] command (lines 221-228 and
    231-238): the right number of tokens, all integers, none negative in
    the vector; otherwise a message is printed and nothing is done. *)
Definition read_call (mk : Z → list Z → call) (m0 : Z) (parts : list string)
  : result action :=
  if bool_decide (Z.of_nat (length parts) ≠ 2 + m0) then Ok Nothing else
  tok <- getitem parts 1;;
  pid <- int_of tok;;
  v <- collect int_of (drop 2 parts);;
  if existsb (λ x, x <? 0) v then Ok Nothing else Ok (Call (mk pid v)).

(** The body of the [try] of the command loop (lines 211-241), up to the
    call it makes, for the tokens [parts] of a command line and the number
    [m0] of resource classes.  An exception it raises is caught and
    reported by line 242. *)
Definition dispatch (m0 : Z) (parts : list string) : result action :=
  tok <- getitem parts 0;;
  let op := lower tok in
  if bool_decide (op = "quit" ∨ op = "exit") then Ok Quit
  else if bool_decide (op = "show") then Ok Show
  else if bool_decide (op = "safe") then Ok Safe
  else if bool_decide (op = "req") then read_call Req m0 parts
  else if bool_decide (op = "rel") then read_call Rel m0 parts
  else Ok Nothing.
End command_loop.

(** A one-process ledger that satisfies I1 and I2. *)
Definition tiny : BankerSystem :=
  {| n := 1; m := 1; available := [5]; max_need := [[1]];
     allocation := [[0]] |}.

(** * Properties *)

(** ** Runtime lemmas *)

Lemma bind_Ok {A B} (r : result A) (k : A → result B) b :
  bind r k = Ok b ↔ ∃ a, r = Ok a ∧ k a = Ok b.
Proof.
  destruct r; simpl; split; try (intros (? & ? & ?)); try discriminate; eauto.
  intros; simplify_eq; done.
Qed.

Lemma norm_index_nonneg {A} (l : list A) i :
  0 ≤ i →
  norm_index l i =
    if bool_decide (i < Z.of_nat (length l)) then Some (Z.to_nat i) else None.
Proof.
  intros Hi. unfold norm_index.
  rewrite (bool_decide_eq_false_2 (i < 0)) by lia.
  repeat case_bool_decide; try lia; done.
Qed.

Lemma getitem_Ok {A} (l : list A) i x :
  0 ≤ i → l !! Z.to_nat i = Some x → getitem l i = Ok x.
Proof.
  intros Hi Hx. unfold getitem. rewrite norm_index_nonneg by done.
  apply lookup_lt_Some in Hx as Hlt.
  rewrite bool_decide_eq_true_2 by lia. by rewrite Hx.
Qed.

Lemma getitem_Ok_inv {A} (l : list A) i x :
  0 ≤ i → getitem l i = Ok x → l !! Z.to_nat i = Some x.
Proof.
  intros Hi. unfold getitem. rewrite norm_index_nonneg by done.
  case_bool_decide; [|done].
  destruct (l !! Z.to_nat i); [|done]. by intros [= ->].
Qed.

Lemma getitem_total `{!Inhabited A} (l : list A) i :
  0 ≤ i < Z.of_nat (length l) → getitem l i = Ok (l !!! Z.to_nat i).
Proof.
  intros Hi. apply getitem_Ok; [lia|].
  apply list_lookup_lookup_total_lt. lia.
Qed.

Lemma setitem_Ok {A} (l : list A) i x :
  0 ≤ i < Z.of_nat (length l) → setitem l i x = Ok (<[Z.to_nat i := x]> l).
Proof.
  intros Hi. unfold setitem. rewrite norm_index_nonneg by lia.
  by rewrite bool_decide_eq_true_2 by lia.
Qed.

Lemma comprehension_seqZ {A} (f : Z → result A) (l : list A) k :
  (∀ i x, l !! i = Some x → f (k + Z.of_nat i) = Ok x) →
  comprehension f (seqZ k (Z.of_nat (length l))) = Ok l.
Proof.
  revert k. induction l as [|x l IH]; intros k Hf.
  - by rewrite seqZ_nil.
  - rewrite seqZ_cons by (simpl; lia). simpl comprehension.
    specialize (Hf 0%nat x eq_refl) as Hx. rewrite Z.add_0_r in Hx.
    rewrite Hx. simpl.
    replace (Z.pred (Z.of_nat (S (length l)))) with (Z.of_nat (length l))
      by lia.
    rewrite IH; [done|].
    intros i y Hy. replace (Z.succ k + Z.of_nat i) with (k + Z.of_nat (S i)) by lia.
    by apply Hf.
Qed.

Lemma comprehension_range {A} (f : Z → result A) (l : list A) k :
  k = Z.of_nat (length l) →
  (∀ i x, l !! i = Some x → f (Z.of_nat i) = Ok x) →
  comprehension f (range k) = Ok l.
Proof. intros -> Hf. apply comprehension_seqZ. intros i x Hx. by apply Hf. Qed.

Lemma elem_of_range k i : i ∈ range k ↔ 0 ≤ i < k.
Proof. unfold range. rewrite elem_of_seqZ. lia. Qed.

(** ** Vectors *)

Lemma vec_le_lookup a b :
  vec_le a b = true ↔
  ∀ j x y, a !! j = Some x → b !! j = Some y → x ≤ y.
Proof.
  unfold vec_le. revert b. induction a as [|x a IH]; intros [|y b]; simpl;
    try (split; [intros _ j ? ? ?; by rewrite ?lookup_nil|done]).
  rewrite andb_true_iff, IH, Z.leb_le. split.
  - intros [Hxy H] [|j] x' y'; simpl; [by intros [= <-] [= <-]|apply H].
  - intros H. split; [by apply (H 0%nat)|]. intros j. apply (H (S j)).
Qed.

Lemma vec_le_total a b k :
  length a = k → length b = k →
  vec_le a b = true ↔ ∀ j, (j < k)%nat → a !!! j ≤ b !!! j.
Proof.
  intros Ha Hb. rewrite vec_le_lookup. split.
  - intros H j Hj. apply (H j); apply list_lookup_lookup_total_lt; lia.
  - intros H j x y Hx Hy. apply lookup_lt_Some in Hx as Hj.
    rewrite (list_lookup_total_correct _ _ _ Hx) in H || idtac.
    specialize (H j ltac:(lia)).
    by rewrite (list_lookup_total_correct _ _ _ Hx),
               (list_lookup_total_correct _ _ _ Hy) in H.
Qed.

Lemma zip_with_total (f : Z → Z → Z) a b j :
  (j < length a)%nat → (j < length b)%nat →
  zip_with f a b !!! j = f (a !!! j) (b !!! j).
Proof.
  intros Ha Hb. apply list_lookup_total_correct.
  rewrite lookup_zip_with.
  rewrite (list_lookup_lookup_total_lt a j), (list_lookup_lookup_total_lt b j)
    by done.
  done.
Qed.

(** ** Sums *)

Lemma sumZ_app f l k : sumZ f (l ++ k) = sumZ f l + sumZ f k.
Proof. induction l as [|x l IH]; simpl; [done|]. rewrite IH. lia. Qed.

Lemma sumZ_ext f g l : (∀ i, i ∈ l → f i = g i) → sumZ f l = sumZ g l.
Proof.
  induction l as [|x l IH]; intros H; simpl; [done|].
  rewrite H, IH; [done| |]; intros; try apply H; rewrite elem_of_cons; auto.
Qed.

Lemma sumZ_submseteq f l k :
  (∀ i, 0 ≤ f i) → l ⊆+ k → sumZ f l ≤ sumZ f k.
Proof.
  intros Hf. induction 1; simpl; try lia.
  specialize (Hf x). lia.
Qed.

(** Changing the summand at one index [k] by [d] changes the sum over a
    duplicate-free list by [d] when [k] occurs in it. *)
Lemma sumZ_update f g k d l :
  NoDup l → (∀ i, i ∈ l → g i = f i + (if decide (i = k) then d else 0)) →
  sumZ g l = sumZ f l + (if decide (k ∈ l) then d else 0).
Proof.
  induction 1 as [|x l Hx Hl IH]; intros Hg.
  - case_decide as Hk; [by apply not_elem_of_nil in Hk|]. simpl. lia.
  - unfold sumZ in *. cbn [foldr].
    rewrite IH; [|intros; apply Hg; apply elem_of_cons; auto].
    rewrite (Hg x); [|apply elem_of_cons; auto].
    assert (k ∈ x :: l ↔ x = k ∨ k ∈ l) as Hc.
    { rewrite elem_of_cons. intuition congruence. }
    repeat case_decide; subst; try lia; exfalso; intuition congruence.
Qed.

(** ** Completion orders *)

Lemma completion_range s p i : completion s p → i ∈ p → 0 ≤ i < n s.
Proof.
  induction 1 as [|p k Hp IH Hk Hnew Hfit]; intros Hi.
  - by apply not_elem_of_nil in Hi.
  - apply elem_of_app in Hi as [Hi|Hi]; [by apply IH|].
    apply list_elem_of_singleton in Hi. by subst.
Qed.

Lemma completion_NoDup s p : completion s p → NoDup p.
Proof.
  induction 1 as [|p k Hp IH Hk Hnew Hfit]; [constructor|].
  apply NoDup_app. split; [done|]. split; [|apply NoDup_singleton].
  intros x Hx Hx'. apply list_elem_of_singleton in Hx'. by subst.
Qed.

Lemma completion_submseteq s p : completion s p → p ⊆+ range (n s).
Proof.
  intros Hp. apply NoDup_submseteq; [by eapply completion_NoDup|].
  intros i Hi. apply elem_of_range. by eapply completion_range.
Qed.

Lemma completion_length s p : completion s p → (length p ≤ Z.to_nat (n s))%nat.
Proof.
  intros Hp. apply completion_submseteq, submseteq_length in Hp.
  unfold range in Hp. by rewrite length_seqZ in Hp.
Qed.

(** A completion order that names [n] processes names all of them. *)
Lemma completion_full s p :
  completion s p →
  length p = Z.to_nat (n s) ↔ ∀ i, 0 ≤ i < n s → i ∈ p.
Proof.
  intros Hp. split.
  - intros Hlen i Hi.
    assert (p ≡ₚ range (n s)) as ->; [|by apply elem_of_range].
    apply submseteq_length_Permutation; [by eapply completion_submseteq|].
    unfold range. rewrite length_seqZ. lia.
  - intros Hall. apply Nat.le_antisymm; [by eapply completion_length|].
    assert (range (n s) ⊆+ p) as Hsub.
    { apply NoDup_submseteq; [apply NoDup_seqZ|].
      intros i Hi. apply Hall. by apply elem_of_range. }
    apply submseteq_length in Hsub. unfold range in Hsub.
    by rewrite length_seqZ in Hsub.
Qed.

Lemma forallb_id_lookup (l : list bool) :
  forallb id l = true ↔ ∀ i, (i < length l)%nat → l !!! i = true.
Proof.
  induction l as [|b l IH]; simpl.
  - split; [intros _ i Hi; lia|done].
  - rewrite andb_true_iff, IH. split.
    + intros [Hb Hl] [|i] Hi; [done|]. apply Hl. lia.
    + intros H. split; [apply (H 0%nat); lia|].
      intros i Hi. apply (H (S i)). lia.
Qed.

(** ** Order independence *)

Lemma alloc_at_nonneg s i j : alloc_nonneg s → 0 ≤ alloc_at s i j.
Proof.
  intros Hs. unfold alloc_at. rewrite !list_lookup_total_alt.
  destruct (allocation s !! Z.to_nat i) as [row|] eqn:Hrow; simpl; [|done].
  destruct (row !! j) as [x|] eqn:Hx; simpl; [|done].
  eapply (proj1 (Forall_lookup _ _)); [|exact Hx].
  eapply (proj1 (Forall_lookup _ _) Hs). exact Hrow.
Qed.

Lemma work_at_mono s p q j :
  alloc_nonneg s → p ⊆+ q → work_at s p j ≤ work_at s q j.
Proof.
  intros Hs Hpq. unfold work_at.
  pose proof (sumZ_submseteq (λ i, alloc_at s i j) p q
                (λ i, alloc_at_nonneg s i j Hs) Hpq).
  lia.
Qed.

(** With non-negative allocations, every completion order stays inside
    any completion order that cannot be extended. *)
Lemma completion_subset s p q :
  alloc_nonneg s → completion s p → stuck s q → ∀ i, i ∈ p → i ∈ q.
Proof.
  intros Hs Hp Hq. induction Hp as [|p k Hp IH Hk Hnew Hfit]; intros i Hi.
  { by apply not_elem_of_nil in Hi. }
  apply elem_of_app in Hi as [Hi|Hi]; [by apply IH|].
  apply list_elem_of_singleton in Hi. subst i.
  destruct (decide (k ∈ q)) as [|Hkq]; [done|].
  exfalso. apply (Hq k Hk Hkq). intros j Hj.
  etrans; [by apply Hfit|]. apply work_at_mono; [done|].
  apply NoDup_submseteq; [by eapply completion_NoDup|done].
Qed.

Lemma completion_stuck_unique s p q :
  alloc_nonneg s → completion s p → stuck s p → completion s q → stuck s q →
  p ≡ₚ q.
Proof.
  intros Hs Hp Hsp Hq Hsq.
  apply NoDup_Permutation; [by eapply completion_NoDup..|].
  intros i. split; by eapply completion_subset.
Qed.

(** ** Well-dimensioned ledgers *)

Section ledger.
Context (s : BankerSystem) (Hwf : wf s).

Lemma alloc_row_length i :
  0 ≤ i < n s → length (allocation s !!! Z.to_nat i) = Z.to_nat (m s).
Proof.
  intros Hi.
  apply (proj1 (Forall_lookup _ _) (wf_alloc_cols _ Hwf) (Z.to_nat i)).
  apply list_lookup_lookup_total_lt. rewrite (wf_alloc_rows _ Hwf). lia.
Qed.

Lemma max_row_length i :
  0 ≤ i < n s → length (max_need s !!! Z.to_nat i) = Z.to_nat (m s).
Proof.
  intros Hi.
  apply (proj1 (Forall_lookup _ _) (wf_max_cols _ Hwf) (Z.to_nat i)).
  apply list_lookup_lookup_total_lt. rewrite (wf_max_rows _ Hwf). lia.
Qed.

Lemma needM_length : length (needM s) = Z.to_nat (n s).
Proof. unfold needM. rewrite length_zip_with. destruct Hwf. lia. Qed.

Lemma needM_row i :
  0 ≤ i < n s →
  needM s !!! Z.to_nat i =
    vec_sub (max_need s !!! Z.to_nat i) (allocation s !!! Z.to_nat i).
Proof.
  intros Hi. destruct Hwf. unfold needM.
  apply list_lookup_total_correct. rewrite lookup_zip_with.
  rewrite !list_lookup_lookup_total_lt by lia. done.
Qed.

Lemma needM_row_length i :
  0 ≤ i < n s → length (needM s !!! Z.to_nat i) = Z.to_nat (m s).
Proof.
  intros Hi. rewrite needM_row by done. unfold vec_sub.
  rewrite length_zip_with, max_row_length, alloc_row_length by done. lia.
Qed.

Lemma needM_at i j :
  0 ≤ i < n s → (j < Z.to_nat (m s))%nat →
  (needM s !!! Z.to_nat i) !!! j = need_at s i j.
Proof.
  intros Hi Hj. rewrite needM_row by done. unfold vec_sub.
  rewrite zip_with_total; [done| |].
  - by rewrite max_row_length.
  - by rewrite alloc_row_length.
Qed.

(** On a well-dimensioned ledger [need()] raises nothing. *)
Lemma need_ok : need s = Ok (needM s).
Proof.
  unfold need. apply comprehension_range.
  { rewrite needM_length. destruct Hwf. lia. }
  intros i row Hrow.
  apply lookup_lt_Some in Hrow as Hi. rewrite needM_length in Hi.
  assert (0 ≤ Z.of_nat i < n s) as Hi' by lia.
  apply list_lookup_total_correct in Hrow as Hrow'.
  pose proof (needM_row (Z.of_nat i) Hi') as Hr.
  pose proof (needM_row_length (Z.of_nat i) Hi') as Hl.
  rewrite Nat2Z.id in Hr, Hl. rewrite Hrow' in Hr, Hl.
  apply comprehension_range.
  { rewrite Hl. destruct Hwf. lia. }
  intros j x Hx. apply lookup_lt_Some in Hx as Hj. rewrite Hl in Hj.
  rewrite Hr in Hx. unfold vec_sub in Hx.
  apply lookup_zip_with_Some in Hx as (a & b & -> & Ha & Hb).
  destruct Hwf.
  rewrite (getitem_total (max_need s)) by lia. simpl.
  rewrite (getitem_Ok _ _ a) by (rewrite ?Nat2Z.id; done || lia). simpl.
  rewrite (getitem_total (allocation s)) by lia. simpl.
  rewrite (getitem_Ok _ _ b) by (rewrite ?Nat2Z.id; done || lia). simpl.
  done.
Qed.

(** The comparison of line 48 decides [fits]. *)
Lemma vec_le_fits st i :
  scan_inv s st → 0 ≤ i < n s →
  vec_le (needM s !!! Z.to_nat i) (work st) = true ↔ fits s (seq st) i.
Proof.
  intros Hinv Hi.
  rewrite (vec_le_total _ _ (Z.to_nat (m s)));
    [|by apply needM_row_length|by apply Hinv].
  unfold fits. split; intros H j Hj; specialize (H j Hj).
  - by rewrite needM_at, (inv_work _ _ Hinv) in H.
  - by rewrite needM_at, (inv_work _ _ Hinv).
Qed.
Lemma scan0_inv : scan_inv s (scan0 s).
Proof.
  split; simpl.
  - apply Hwf.
  - intros j Hj. unfold work_at, avail_at. simpl. lia.
  - apply length_replicate.
  - intros i Hi. rewrite lookup_total_replicate_2 by lia.
    split; [done|]. intros H. by apply not_elem_of_nil in H.
  - constructor.
Qed.

Lemma scan_inv_flag st b :
  scan_inv s st →
  scan_inv s {| work := work st; finish := finish st; seq := seq st;
                changed := b |}.
Proof. intros []. by split. Qed.

Lemma advance_inv st i :
  scan_inv s st → 0 ≤ i < n s → i ∉ seq st → fits s (seq st) i →
  scan_inv s (advance s st i).
Proof.
  intros Hinv Hi Hnew Hfit. split; simpl.
  - unfold vec_add. rewrite length_zip_with, alloc_row_length by done.
    rewrite (inv_work_len _ _ Hinv). lia.
  - intros j Hj. unfold vec_add. rewrite zip_with_total.
    + rewrite (inv_work _ _ Hinv) by done. unfold work_at.
      rewrite sumZ_app. unfold alloc_at. simpl. lia.
    + by rewrite (inv_work_len _ _ Hinv).
    + by rewrite alloc_row_length.
  - rewrite length_insert. apply Hinv.
  - intros k Hk. rewrite elem_of_app, list_elem_of_singleton.
    destruct (decide (k = i)) as [->|Hne].
    + rewrite list_lookup_total_insert_eq; [tauto|].
      rewrite (inv_finish_len _ _ Hinv). lia.
    + rewrite list_lookup_total_insert_ne by lia.
      rewrite (inv_finish _ _ Hinv) by done. tauto.
  - constructor; [apply Hinv|done..].
Qed.

(** One execution of the loop body at an index of [range(n)]. *)
Lemma visit_spec st i :
  scan_inv s st → 0 ≤ i < n s →
  (visit s (needM s) i st = Ok st ∧ (i ∈ seq st ∨ ¬ fits s (seq st) i)) ∨
  (visit s (needM s) i st = Ok (advance s st i) ∧
   (i ∉ seq st) ∧ fits s (seq st) i).
Proof.
  intros Hinv Hi. unfold visit.
  rewrite (getitem_total (finish st)) by (rewrite (inv_finish_len _ _ Hinv); lia).
  simpl. destruct (finish st !!! Z.to_nat i) eqn:Hfin.
  { left. split; [done|]. left. by apply (inv_finish _ _ Hinv). }
  assert (i ∉ seq st) as Hnew.
  { intros Hin. apply (inv_finish _ _ Hinv) in Hin; [congruence|done]. }
  rewrite (getitem_total (needM s)) by (rewrite needM_length; lia).
  simpl. destruct (vec_le _ _) eqn:Hle.
  - apply vec_le_fits in Hle; [|done..].
    rewrite (getitem_total (allocation s))
      by (rewrite (wf_alloc_rows _ Hwf); lia).
    simpl. rewrite setitem_Ok by (rewrite (inv_finish_len _ _ Hinv); lia).
    simpl. by right.
  - left. split; [done|]. right. intros Hfit.
    apply vec_le_fits in Hfit; [congruence|done..].
Qed.

(** The [for] loop over in-range indices: either nothing was selected and
    the state is untouched, or the sequence grew and [changed] is set. *)
Lemma for_each_visit l st :
  scan_inv s st → (∀ i, i ∈ l → 0 ≤ i < n s) →
  ∃ st', for_each (visit s (needM s)) l st = Ok st' ∧ scan_inv s st' ∧
    ((st' = st ∧ ∀ i, i ∈ l → i ∈ seq st ∨ ¬ fits s (seq st) i) ∨
     (changed st' = true ∧ (length (seq st) < length (seq st'))%nat)).
Proof.
  revert st. induction l as [|i l IH]; intros st Hinv Hl.
  { exists st. split; [done|]. split; [done|]. left. split; [done|].
    intros i Hi. by apply not_elem_of_nil in Hi. }
  assert (0 ≤ i < n s) as Hi by (apply Hl, elem_of_cons; auto).
  assert (∀ k, k ∈ l → 0 ≤ k < n s) as Hl'
    by (intros; apply Hl, elem_of_cons; auto).
  simpl. destruct (visit_spec st i Hinv Hi) as [[-> Hskip]|(-> & Hnew & Hfit)].
  - simpl. destruct (IH st Hinv Hl') as (st' & -> & Hinv' & Hcase).
    exists st'. split; [done|]. split; [done|].
    destruct Hcase as [[-> Hall]|?]; [left|by right].
    split; [done|]. intros k [->|Hk]%elem_of_cons; auto.
  - simpl. pose proof (advance_inv st i Hinv Hi Hnew Hfit) as Hadv.
    destruct (IH _ Hadv Hl') as (st' & -> & Hinv' & Hcase).
    exists st'. split; [done|]. split; [done|]. right.
    destruct Hcase as [[-> _]|[-> Hlen]]; simpl in *;
      rewrite ?length_app in *; simpl in *; split; (done || lia).
Qed.

(** One sweep of the [while] loop. *)
Lemma sweep_spec st :
  scan_inv s st →
  ∃ st', sweep s (needM s) st = Ok st' ∧ scan_inv s st' ∧
    ((changed st' = false ∧ seq st' = seq st ∧ finish st' = finish st ∧
      stuck s (seq st)) ∨
     (changed st' = true ∧ (length (seq st) < length (seq st'))%nat)).
Proof.
  intros Hinv. unfold sweep.
  destruct (for_each_visit (range (n s)) _ (scan_inv_flag st false Hinv))
    as (st' & -> & Hinv' & Hcase).
  { intros i. apply elem_of_range. }
  exists st'. split; [done|]. split; [done|].
  destruct Hcase as [[-> Hall]|?]; [left|by right].
  simpl. repeat split. intros i Hi Hnew Hfit.
  destruct (Hall i) as [?|?]; [by apply elem_of_range|done..].
Qed.

Lemma while_changed_done fuel needM' st :
  changed st = false → while_changed fuel s needM' st = Ok st.
Proof. intros H. destruct fuel; simpl; by rewrite H. Qed.

(** The [while] loop ends within the sweeps allotted to it, in a state
    where no unfinished process fits. *)
Lemma while_changed_spec fuel st :
  scan_inv s st → (changed st = false → stuck s (seq st)) →
  (Z.to_nat (n s) < fuel + length (seq st))%nat →
  ∃ st', while_changed fuel s (needM s) st = Ok st' ∧
    scan_inv s st' ∧ stuck s (seq st').
Proof.
  revert st. induction fuel as [|fuel IH]; intros st Hinv Hstuck Hfuel.
  { pose proof (completion_length _ _ (inv_completion _ _ Hinv)). lia. }
  destruct (changed st) eqn:Hch.
  2:{ exists st. rewrite while_changed_done by done. auto. }
  simpl. rewrite Hch.
  destruct (sweep_spec st Hinv) as (st1 & -> & Hinv1 & Hcase). simpl.
  destruct Hcase as [(Hch1 & Hseq & _ & Hst)|[Hch1 Hlen]].
  - exists st1. rewrite while_changed_done by done.
    rewrite Hseq. auto.
  - apply IH; [done|congruence|lia].
Qed.

(** The verdict [all(finish)] says that every process is in [seq]. *)
Lemma safe_flag st :
  scan_inv s st →
  forallb id (finish st) = true ↔ length (seq st) = Z.to_nat (n s).
Proof.
  intros Hinv.
  rewrite forallb_id_lookup, (inv_finish_len _ _ Hinv).
  rewrite (completion_full _ _ (inv_completion _ _ Hinv)).
  split.
  - intros H i Hi. apply (inv_finish _ _ Hinv); [done|]. apply H. lia.
  - intros H i Hi.
    specialize (H (Z.of_nat i) ltac:(lia)).
    apply (inv_finish _ _ Hinv) in H; [|lia]. by rewrite Nat2Z.id in H.
Qed.

(** [safety_check] returns, and what it returns. *)
Lemma safety_run_spec :
  ∃ st, safety_run (S (Z.to_nat (n s))) s
          = Ok (forallb id (finish st), seq st) ∧
        scan_inv s st ∧ stuck s (seq st).
Proof.
  unfold safety_run. rewrite need_ok. cbn [bind].
  destruct (while_changed_spec (S (Z.to_nat (n s))) (scan0 s) scan0_inv)
    as (st & Hrun & Hinv & Hst).
  { done. }
  { simpl. lia. }
  exists st. unfold scan0 in Hrun. rewrite Hrun. done.
Qed.
(** The restart algorithm of the specification on the same ledger. *)
Lemma ready_spec st i :
  scan_inv s st → 0 ≤ i < n s →
  ready s st i = true ↔ (i ∉ seq st) ∧ fits s (seq st) i.
Proof.
  intros Hinv Hi. unfold ready.
  rewrite <- needM_row by done.
  rewrite andb_true_iff, negb_true_iff, vec_le_fits by done.
  rewrite <- (inv_finish _ _ Hinv) by done.
  destruct (finish st !!! Z.to_nat i); intuition congruence.
Qed.

Lemma restart_scan_spec fuel st :
  scan_inv s st → (Z.to_nat (n s) ≤ fuel + length (seq st))%nat →
  ∃ st', restart_scan fuel s st = Ok st' ∧ scan_inv s st' ∧
         stuck s (seq st').
Proof.
  revert st. induction fuel as [|fuel IH]; intros st Hinv Hfuel.
  - destruct (List.find (ready s st) (range (n s))) as [i|] eqn:Hfind.
    + apply find_some in Hfind as [Hi Hr].
      apply list_elem_of_In, elem_of_range in Hi.
      apply ready_spec in Hr as [Hnew Hfit]; [|done..].
      pose proof (advance_inv st i Hinv Hi Hnew Hfit) as Hadv.
      apply inv_completion, completion_length in Hadv.
      simpl in Hadv. rewrite length_app in Hadv. simpl in Hadv. lia.
    + exists st. simpl. rewrite Hfind. split; [done|]. split; [done|].
      intros i Hi Hnew Hfit.
      eapply find_none in Hfind; [|by apply list_elem_of_In, elem_of_range].
      assert (ready s st i = true) by (by apply ready_spec).
      congruence.
  - destruct (List.find (ready s st) (range (n s))) as [i|] eqn:Hfind.
    + simpl. rewrite Hfind.
      apply find_some in Hfind as [Hi Hr].
      apply list_elem_of_In, elem_of_range in Hi.
      apply ready_spec in Hr as [Hnew Hfit]; [|done..].
      apply IH; [by apply advance_inv|].
      simpl. rewrite length_app. simpl. lia.
    + exists st. simpl. rewrite Hfind. split; [done|]. split; [done|].
      intros i Hi Hnew Hfit.
      eapply find_none in Hfind; [|by apply list_elem_of_In, elem_of_range].
      assert (ready s st i = true) by (by apply ready_spec).
      congruence.
Qed.

Lemma isSafe_restart_spec :
  ∃ st, isSafe_restart s = Ok (forallb id (finish st), seq st) ∧
        scan_inv s st ∧ stuck s (seq st).
Proof.
  unfold isSafe_restart.
  destruct (restart_scan_spec (Z.to_nat (n s)) (scan0 s) scan0_inv)
    as (st & Hrun & Hinv & Hst).
  { simpl. lia. }
  exists st. unfold scan0 in Hrun. rewrite Hrun. done.
Qed.
End ledger.

(** ** The two transitions on a well-dimensioned ledger *)

Lemma bind_traced_lift {A B} (r : result A) (k : A → traced B) :
  bind_traced (lift r) k =
    match r with
    | Ok a => k a
    | Raise e => (0%nat, Raise e)
    | OutOfFuel => (0%nat, OutOfFuel)
    end.
Proof. destruct r; try done. unfold bind_traced, lift. simpl. by destruct (k a). Qed.

Section transitions.
Context (s : BankerSystem) (Hwf : wf s).
Context (pid : Z) (Hpid : 0 ≤ pid < n s).
Context (v : list Z) (Hlen : Z.of_nat (length v) = m s).

Lemma row_insert_wf (f : Z → Z → Z) av :
  length av = Z.to_nat (m s) →
  wf {| n := n s; m := m s; available := av; max_need := max_need s;
        allocation :=
          <[Z.to_nat pid := zip_with f (allocation s !!! Z.to_nat pid) v]>
            (allocation s) |}.
Proof.
  intros Hav. destruct Hwf. split; simpl; try done.
  - by rewrite length_insert.
  - apply Forall_insert; [done|].
    rewrite length_zip_with, alloc_row_length by done. lia.
Qed.

Lemma speculated_wf : wf (speculated s pid v).
Proof.
  apply row_insert_wf. unfold vec_sub.
  rewrite length_zip_with, (wf_available _ Hwf). lia.
Qed.

Lemma released_wf : wf (released s pid v).
Proof.
  apply row_insert_wf. unfold vec_add.
  rewrite length_zip_with, (wf_available _ Hwf). lia.
Qed.

Lemma row_insert_at (f : Z → Z → Z) i j :
  0 ≤ i < n s → (j < Z.to_nat (m s))%nat →
  (<[Z.to_nat pid := zip_with f (allocation s !!! Z.to_nat pid) v]>
     (allocation s) !!! Z.to_nat i) !!! j =
  if decide (i = pid) then f (alloc_at s i j) (v !!! j) else alloc_at s i j.
Proof.
  intros Hi Hj. unfold alloc_at. case_decide as Heq.
  - subst i. rewrite list_lookup_total_insert_eq
      by (rewrite (wf_alloc_rows _ Hwf); lia).
    apply zip_with_total; [rewrite alloc_row_length by done|]; lia.
  - by rewrite list_lookup_total_insert_ne by lia.
Qed.

Lemma speculated_transfer :
  transfer s (speculated s pid v) pid (λ j, v !!! j).
Proof.
  split; try done.
  - intros j Hj. unfold avail_at, speculated, vec_sub. simpl.
    apply zip_with_total; [rewrite (wf_available _ Hwf)|]; lia.
  - intros i j Hi Hj. unfold alloc_at at 1, speculated, vec_add. simpl.
    rewrite row_insert_at by done. by case_decide; [|lia].
Qed.

Lemma released_transfer :
  transfer s (released s pid v) pid (λ j, - v !!! j).
Proof.
  split; try done.
  - intros j Hj. unfold avail_at, released, vec_add. simpl.
    rewrite zip_with_total; [lia|rewrite (wf_available _ Hwf)|]; lia.
  - intros i j Hi Hj. unfold alloc_at at 1, released, vec_sub. simpl.
    rewrite row_insert_at by done. case_decide; lia.
Qed.

Lemma printed_row_ok s' :
  wf s' → n s' = n s → printed_row s' pid = Ok ().
Proof.
  intros Hwf' Hn. unfold printed_row.
  rewrite (getitem_total (allocation s'))
    by (rewrite (wf_alloc_rows _ Hwf'); lia).
  simpl. rewrite need_ok by done. simpl.
  by rewrite (getitem_total (needM s')) by (rewrite needM_length by done; lia).
Qed.

(** [release] on in-range arguments: lines 124-138. *)
Lemma release_eval verbose :
  release s pid v verbose =
    if vec_le v (allocation s !!! Z.to_nat pid)
    then (0%nat, Ok (true, released s pid v))
    else (0%nat, Ok (false, s)).
Proof.
  unfold release.
  rewrite bool_decide_eq_false_2 by lia.
  rewrite bool_decide_eq_false_2 by lia.
  rewrite !bind_traced_lift.
  rewrite (getitem_total (allocation s))
    by (rewrite (wf_alloc_rows _ Hwf); lia).
  destruct (vec_le _ _); simpl; [|done].
  rewrite !bind_traced_lift.
  rewrite setitem_Ok by (rewrite (wf_alloc_rows _ Hwf); lia).
  rewrite bind_traced_lift.
  fold (released s pid v).
  destruct verbose; [|done].
  by rewrite (printed_row_ok _ released_wf eq_refl).
Qed.

(** [request] on in-range arguments: lines 72-113. *)
Lemma request_at_eval verbose :
  request_at s pid v verbose =
    if negb (vec_le v (needM s !!! Z.to_nat pid))
    then (0%nat, Ok (ExceedsNeed, s))
    else if negb (vec_le v (available s))
    then (0%nat, Ok (ExceedsAvailable, s))
    else match safety_run (S (Z.to_nat (n s))) (speculated s pid v) with
         | Ok (true, _) => (1%nat, Ok (Granted, speculated s pid v))
         | Ok (false, _) => (1%nat, Ok (UnsafeAfterSpeculation, s))
         | Raise e => (1%nat, Raise e)
         | OutOfFuel => (1%nat, OutOfFuel)
         end.
Proof.
  unfold request_at.
  rewrite bool_decide_eq_false_2 by lia.
  rewrite bool_decide_eq_false_2 by lia.
  rewrite bind_traced_lift, need_ok by done.
  rewrite bind_traced_lift.
  rewrite (getitem_total (needM s)) by (rewrite needM_length by done; lia).
  destruct (negb (vec_le v (needM s !!! Z.to_nat pid))); [done|].
  destruct (negb (vec_le v (available s))); [done|].
  rewrite bind_traced_lift.
  rewrite (getitem_total (allocation s))
    by (rewrite (wf_alloc_rows _ Hwf); lia).
  rewrite bind_traced_lift.
  rewrite setitem_Ok by (rewrite (wf_alloc_rows _ Hwf); lia).
  fold (speculated s pid v).
  rewrite bind_traced_lift.
  assert ((if verbose then printed_row (speculated s pid v) pid else Ok ())
          = Ok ()) as ->.
  { destruct verbose; [|done].
    by rewrite (printed_row_ok _ speculated_wf eq_refl). }
  unfold safety_check, bind_traced, tick, lift. simpl.
  destruct (safety_run _ _) as [[[] ?]| |]; done.
Qed.
End transitions.

Lemma request_at_bad_args s pid v verbose :
  pid < 0 ∨ n s ≤ pid ∨ Z.of_nat (length v) ≠ m s →
  request_at s pid v verbose = (0%nat, Raise ValueError).
Proof.
  intros Hbad. unfold request_at.
  case_bool_decide; [done|]. case_bool_decide; [done|]. lia.
Qed.

Lemma release_bad_args s pid v verbose :
  pid < 0 ∨ n s ≤ pid ∨ Z.of_nat (length v) ≠ m s →
  release s pid v verbose = (0%nat, Raise ValueError).
Proof.
  intros Hbad. unfold release.
  case_bool_decide; [done|]. case_bool_decide; [done|]. lia.
Qed.

Lemma request_unfold s pid v verbose :
  request s pid v verbose =
    match request_at s pid v verbose with
    | (c, Ok (e, s')) => (c, Ok (granted e, s'))
    | (c, Raise x) => (c, Raise x)
    | (c, OutOfFuel) => (c, OutOfFuel)
    end.
Proof.
  unfold request, bind_traced, lift.
  destruct (request_at s pid v verbose) as [c [[e s']| |]]; simpl; try done.
  by rewrite Nat.add_0_r.
Qed.

(** What a returning [request] did, on any ledger whatsoever: either it
    left by a rejection with the ledger as it was, or it committed the
    trial allocation after exactly one safety check. *)
Lemma request_at_inv s pid req verbose c e s' :
  request_at s pid req verbose = (c, Ok (e, s')) →
  (e ≠ Granted ∧ s' = s) ∨
  (e = Granted ∧ c = 1%nat ∧ 0 ≤ pid < n s ∧ Z.of_nat (length req) = m s ∧
   ∃ row, allocation s !! Z.to_nat pid = Some row ∧
     s' = {| n := n s; m := m s;
             available := vec_sub (available s) req;
             max_need := max_need s;
             allocation := <[Z.to_nat pid := vec_add row req]> (allocation s) |}).
Proof.
  unfold request_at.
  case_bool_decide as Hpid; [done|]. case_bool_decide as Hlen; [done|].
  rewrite bind_traced_lift. destruct (need s) as [nd| |]; [|done..].
  rewrite bind_traced_lift. destruct (getitem nd pid) as [nrow| |]; [|done..].
  destruct (negb (vec_le req nrow)).
  { intros [= <- <- <-]. by left. }
  destruct (negb (vec_le req (available s))).
  { intros [= <- <- <-]. by left. }
  rewrite bind_traced_lift.
  destruct (getitem (allocation s) pid) as [row| |] eqn:Hrow; [|done..].
  apply getitem_Ok_inv in Hrow; [|lia].
  apply lookup_lt_Some in Hrow as Hlt.
  rewrite bind_traced_lift, setitem_Ok by lia.
  rewrite bind_traced_lift.
  destruct (if verbose then _ else _); [|done..].
  unfold safety_check, bind_traced, tick, lift. simpl.
  destruct (safety_run _ _) as [[[] sq]| |]; simpl; [| |done..].
  - intros [= <- <- <-]. right. repeat split; try lia. by exists row.
  - intros [= <- <- <-]. by left.
Qed.

(** ** Moving units between [Available] and one row *)

Section transfer.
Context (s s' : BankerSystem) (pid : Z) (d : nat → Z).
Context (Htr : transfer s s' pid d).

Lemma transfer_total j :
  0 ≤ pid < n s → (j < Z.to_nat (m s))%nat → total s' j = total s j.
Proof.
  intros Hpid Hj. unfold total.
  rewrite (tr_n _ _ _ _ Htr), (tr_avail _ _ _ _ Htr) by done.
  rewrite (sumZ_update (λ i, alloc_at s i j) _ pid (d j)).
  - rewrite decide_True by (by apply elem_of_range). lia.
  - apply NoDup_seqZ.
  - intros i Hi%elem_of_range. by apply (tr_alloc _ _ _ _ Htr).
Qed.

Lemma transfer_work p j :
  completion s p → (j < Z.to_nat (m s))%nat →
  work_at s' p j =
    work_at s p j - d j + (if decide (pid ∈ p) then d j else 0).
Proof.
  intros Hp Hj. unfold work_at.
  rewrite (tr_avail _ _ _ _ Htr) by done.
  rewrite (sumZ_update (λ i, alloc_at s i j) _ pid (d j)).
  - lia.
  - by eapply completion_NoDup.
  - intros i Hi. apply (tr_alloc _ _ _ _ Htr); [|done].
    by eapply completion_range.
Qed.

Lemma transfer_need i j :
  0 ≤ i < n s → (j < Z.to_nat (m s))%nat →
  need_at s' i j = need_at s i j - (if decide (i = pid) then d j else 0).
Proof.
  intros Hi Hj. unfold need_at, max_at.
  rewrite (tr_alloc _ _ _ _ Htr), (tr_max _ _ _ _ Htr) by done. lia.
Qed.

(** Giving units back keeps every completion order valid. *)
Lemma transfer_completion p :
  (∀ j, (j < Z.to_nat (m s))%nat → d j ≤ 0) →
  completion s p → completion s' p.
Proof.
  intros Hd Hp. induction Hp as [|p i Hp IH Hi Hnew Hfit]; [constructor|].
  constructor; [done|by rewrite (tr_n _ _ _ _ Htr)|done|].
  intros j Hj. rewrite (tr_m _ _ _ _ Htr) in Hj.
  rewrite transfer_need, transfer_work by done.
  specialize (Hfit j Hj). specialize (Hd j Hj).
  repeat case_decide; subst; (done || lia).
Qed.
End transfer.

(** ** The unrolling bound of the [while] loop is never reached *)

Lemma unfinished_insert l k :
  l !! k = Some false → (unfinished (<[k := true]> l) < unfinished l)%nat.
Proof.
  revert k. unfold unfinished.
  induction l as [|b l IH]; intros [|k] Hk; simplify_eq/=; [lia|].
  specialize (IH k Hk). destruct b; simpl; lia.
Qed.

Lemma unfinished_replicate k : unfinished (replicate k false) = k.
Proof.
  unfold unfinished. induction k as [|k IH]; [done|]. simpl. by rewrite IH.
Qed.

Lemma visit_progress s nd i st : progress st (visit s nd i st).
Proof.
  unfold visit, getitem, setitem.
  destruct (norm_index (finish st) i) as [k|]; simpl; [|done].
  destruct (finish st !! k) as [[]|] eqn:Hk; simpl; [by left| |done].
  destruct (norm_index nd i); simpl; [|done].
  destruct (nd !! _); simpl; [|done].
  destruct (vec_le _ _); [|by left].
  destruct (norm_index (allocation s) i); simpl; [|done].
  destruct (allocation s !! _); simpl; [|done].
  right. split; [done|]. by apply unfinished_insert.
Qed.

Lemma for_each_progress s nd l st : progress st (for_each (visit s nd) l st).
Proof.
  revert st. induction l as [|i l IH]; intros st; [by left|]. simpl.
  pose proof (visit_progress s nd i st) as H1.
  destruct (visit s nd i st) as [st1| |]; simpl in *; [|done..].
  specialize (IH st1).
  destruct (for_each (visit s nd) l st1) as [st2| |]; simpl in *; [|done..].
  destruct H1 as [->|[Hc1 Hl1]]; [done|].
  destruct IH as [->|[Hc2 Hl2]]; right; split; (done || lia).
Qed.

Lemma while_changed_in_fuel fuel s nd st :
  (unfinished (finish st) < fuel)%nat →
  while_changed fuel s nd st ≠ OutOfFuel.
Proof.
  revert st. induction fuel as [|fuel IH]; intros st Hfuel; [lia|].
  simpl. destruct (changed st); [|done]. unfold sweep.
  pose proof (for_each_progress s nd (range (n s))
              {| work := work st; finish := finish st; seq := seq st;
                 changed := false |}) as Hp.
  destruct (for_each _ _ _) as [st1| |]; simpl in *; [|done..].
  destruct Hp as [->|[Hch Hlt]]; [by destruct fuel|].
  apply IH. lia.
Qed.

Lemma while_changed_more_fuel fuel s nd st :
  while_changed fuel s nd st ≠ OutOfFuel →
  while_changed (S fuel) s nd st = while_changed fuel s nd st.
Proof.
  revert st. induction fuel as [|fuel IH]; intros st.
  - simpl. by destruct (changed st).
  - intros H. change (while_changed (S (S fuel)) s nd st) with
      (if changed st then
         st' <- sweep s nd st;; while_changed (S fuel) s nd st'
       else Ok st).
    simpl in *. destruct (changed st); [|done].
    destruct (sweep s nd st) as [st1| |]; simpl in *; [|done..].
    by apply IH.
Qed.

Lemma comprehension_in_fuel {A} (f : Z → result A) l :
  (∀ i, f i ≠ OutOfFuel) → comprehension f l ≠ OutOfFuel.
Proof.
  intros Hf. induction l as [|i l IH]; [done|]. simpl.
  specialize (Hf i). destruct (f i); simpl; [|done..].
  destruct (comprehension f l); simpl; done.
Qed.

Lemma getitem_in_fuel {A} (l : list A) i : getitem l i ≠ OutOfFuel.
Proof. unfold getitem. by repeat case_match. Qed.

Lemma need_in_fuel s : need s ≠ OutOfFuel.
Proof.
  unfold need. apply comprehension_in_fuel. intros i.
  apply comprehension_in_fuel. intros j.
  pose proof (getitem_in_fuel (max_need s) i).
  destruct (getitem (max_need s) i) as [mrow| |]; simpl; [|done..].
  pose proof (getitem_in_fuel mrow j).
  destruct (getitem mrow j); simpl; [|done..].
  pose proof (getitem_in_fuel (allocation s) i).
  destruct (getitem (allocation s) i) as [arow| |]; simpl; [|done..].
  pose proof (getitem_in_fuel arow j).
  destruct (getitem arow j); simpl; done.
Qed.

(** On every ledger, dimensioned well or not, the [n + 1] sweeps given to
    [safety_check] are enough. *)
Lemma safety_run_in_fuel s : safety_run (S (Z.to_nat (n s))) s ≠ OutOfFuel.
Proof.
  unfold safety_run. pose proof (need_in_fuel s).
  destruct (need s) as [nd| |]; simpl; [|done..].
  pose proof (while_changed_in_fuel (S (Z.to_nat (n s))) s nd
    {| work := available s; finish := replicate (Z.to_nat (n s)) false;
       seq := []; changed := true |}) as Hw.
  simpl in Hw. rewrite unfinished_replicate in Hw. specialize (Hw ltac:(lia)).
  simpl. destruct (sweep _ _ _) as [st1| |]; simpl in *; [|done..].
  destruct (while_changed _ _ _ st1); simpl; done.
Qed.

(** More sweeps change nothing. *)
Lemma safety_run_fuel s k :
  safety_run (S (Z.to_nat (n s)) + k) s = safety_run (S (Z.to_nat (n s))) s.
Proof.
  induction k as [|k IH]; [by rewrite Nat.add_0_r|].
  rewrite Nat.add_succ_r, <- IH.
  pose proof (safety_run_in_fuel s) as Hs. rewrite <- IH in Hs.
  unfold safety_run in *.
  destruct (need s) as [nd| |]; [|done..].
  cbn [bind] in *. rewrite while_changed_more_fuel; [done|].
  intros Hw. by rewrite Hw in Hs.
Qed.

Lemma safety_check_unfold s verbose :
  safety_check s verbose = (1%nat, safety_run (S (Z.to_nat (n s))) s).
Proof. reflexivity. Qed.

Lemma bool_eq_iff (a b : bool) : (a = true ↔ b = true) → a = b.
Proof. destruct a, b; intuition congruence. Qed.

(** * The claims *)

(** C1: on the textbook state of Scenario A the safety check answers safe
    with completion sequence [1,3,4,0,2]. *)
Theorem C1_scenario_A_safe (verbose : bool) :
  safety_check scenario_A verbose = (1%nat, Ok (true, [1; 3; 4; 0; 2])).
Proof. destruct verbose; vm_compute; reflexivity. Qed.

(** C2, as stated, fails: on Scenario A the code, which goes on with the
    next index after a selection, answers [1,3,4,0,2], while the
    restart-from-the-top algorithm answers [1,3,0,2,4]. *)
Lemma C2_restart_order_differs :
  safety_check scenario_A true = (1%nat, Ok (true, [1; 3; 4; 0; 2])) ∧
  isSafe_restart scenario_A = Ok (true, [1; 3; 0; 2; 4]) ∧
  [1; 3; 4; 0; 2] ≠ ([1; 3; 0; 2; 4] : list Z).
Proof. split; [|split]; [vm_compute; reflexivity..|discriminate]. Qed.

(** C2, amended: on every well-dimensioned ledger with non-negative
    allocations the safety check and the restart-from-the-top algorithm
    both return, with the same verdict and with sequences that list the
    same processes, each once; only the order may differ. *)
Theorem C2_same_verdict_same_processes (s : BankerSystem) (verbose : bool) :
  wf s → alloc_nonneg s →
  ∃ safe sq sq',
    safety_check s verbose = (1%nat, Ok (safe, sq)) ∧
    isSafe_restart s = Ok (safe, sq') ∧
    sq ≡ₚ sq'.
Proof.
  intros Hwf Hnn.
  destruct (safety_run_spec s Hwf) as (st & Hrun & Hinv & Hst).
  destruct (isSafe_restart_spec s Hwf) as (st' & Hrun' & Hinv' & Hst').
  assert (seq st ≡ₚ seq st') as Hperm.
  { apply (completion_stuck_unique s); (done || apply Hinv || apply Hinv'). }
  exists (forallb id (finish st)), (seq st), (seq st').
  rewrite safety_check_unfold, Hrun, Hrun'. split; [done|]. split; [|done].
  do 2 f_equal. apply bool_eq_iff.
  rewrite !safe_flag by done. by rewrite Hperm.
Qed.

Lemma C2_same_verdict_same_processes_witness :
  ∃ safe sq sq',
    safety_check scenario_A true = (1%nat, Ok (safe, sq)) ∧
    isSafe_restart scenario_A = Ok (safe, sq') ∧
    sq ≡ₚ sq'.
Proof.
  apply (C2_same_verdict_same_processes scenario_A true).
  - split; simpl; try lia; try reflexivity; repeat constructor.
  - repeat constructor; lia.
Defined.

(** C3: on a safe ledger (well-dimensioned, allocations non-negative), a
    release by an in-range process of a vector of length [m] with
    [0 <= rel[j] <= Allocation[pid][j]] returns true without running the
    safety check, and the ledger it leaves is safe again. *)
Theorem C3_release_keeps_safe (s : BankerSystem) (pid : Z) (rel : list Z)
    (verbose : bool) (sq : list Z) :
  wf s → alloc_nonneg s →
  0 ≤ pid < n s → Z.of_nat (length rel) = m s →
  (∀ j, (j < Z.to_nat (m s))%nat → 0 ≤ rel !!! j ≤ alloc_at s pid j) →
  safety_check s verbose = (1%nat, Ok (true, sq)) →
  ∃ s', release s pid rel verbose = (0%nat, Ok (true, s')) ∧
    ∃ sq', safety_check s' verbose = (1%nat, Ok (true, sq')).
Proof.
  intros Hwf Hnn Hpid Hlen Hrel Hsafe.
  exists (released s pid rel). split.
  { rewrite release_eval by done.
    assert (vec_le rel (allocation s !!! Z.to_nat pid) = true) as ->; [|done].
    apply (vec_le_total _ _ (Z.to_nat (m s))); [lia|by apply alloc_row_length|].
    intros j Hj. by apply Hrel. }
  pose proof (released_wf s Hwf pid Hpid rel Hlen) as Hwf'.
  pose proof (released_transfer s Hwf pid Hpid rel Hlen) as Htr.
  assert (alloc_nonneg (released s pid rel)) as Hnn'.
  { unfold alloc_nonneg, released. simpl. apply Forall_insert; [done|].
    apply (Forall_lookup_total_2 (Z.le 0)). intros j. unfold vec_sub.
    rewrite length_zip_with, alloc_row_length by done. intros Hj.
    rewrite zip_with_total; [|rewrite alloc_row_length by done|]; try lia.
    specialize (Hrel j ltac:(lia)). unfold alloc_at in Hrel. lia. }
  destruct (safety_run_spec s Hwf) as (st & Hrun & Hinv & _).
  rewrite safety_check_unfold, Hrun in Hsafe.
  injection Hsafe as Hflag _.
  apply (proj1 (safe_flag s st Hinv)) in Hflag.
  destruct (safety_run_spec _ Hwf') as (st' & Hrun' & Hinv' & Hst').
  exists (seq st'). rewrite safety_check_unfold, Hrun'.
  do 3 f_equal. apply (proj2 (safe_flag _ st' Hinv')).
  apply completion_full; [apply Hinv'|].
  intros i Hi. eapply completion_subset; [done| |done|].
  - eapply transfer_completion; [done| |apply Hinv].
    intros j Hj. specialize (Hrel j Hj). simpl. lia.
  - by apply (completion_full s); [apply Hinv|..].
Qed.

Lemma C3_release_keeps_safe_witness :
  ∃ s', release scenario_A 1 [1; 0; 0] true = (0%nat, Ok (true, s')) ∧
    ∃ sq', safety_check s' true = (1%nat, Ok (true, sq')).
Proof.
  apply (C3_release_keeps_safe scenario_A 1 [1; 0; 0] true [1; 3; 4; 0; 2]).
  - split; simpl; try lia; try reflexivity; repeat constructor.
  - repeat constructor; lia.
  - simpl; lia.
  - reflexivity.
  - intros [|[|[|j]]] Hj; vm_compute; split; discriminate.
  - vm_compute. reflexivity.
Defined.

(** C4: a request that returns false leaves the ledger as it was: the same
    Available, Allocation and Max (and dimensions), on every ledger. *)
Theorem C4_rejected_request_unchanged (s : BankerSystem) (pid : Z)
    (req : list Z) (verbose : bool) (c : nat) (s' : BankerSystem) :
  request s pid req verbose = (c, Ok (false, s')) → s' = s.
Proof.
  rewrite request_unfold.
  destruct (request_at s pid req verbose) as [c0 [[e s0]| |]] eqn:Hreq;
    [|done..].
  intros [= -> Hg ->].
  apply request_at_inv in Hreq as [[_ ->]|(-> & _)]; done.
Qed.

Lemma C4_rejected_request_unchanged_witness :
  request scenario_A 0 [1; 0; 2] true = (1%nat, Ok (false, scenario_A)) ∧
  scenario_A = scenario_A.
Proof.
  assert (request scenario_A 0 [1; 0; 2] true
          = (1%nat, Ok (false, scenario_A))) as H
    by (vm_compute; reflexivity).
  split; [exact H|].
  exact (C4_rejected_request_unchanged scenario_A 0 [1; 0; 2] true 1
           scenario_A H).
Defined.

(** C5: on a well-dimensioned ledger, a request with in-range [pid] and a
    vector of length [m] that exceeds [Need[pid]] in some class leaves by
    the first rejection (ExceedsNeed), returns false, keeps the ledger and
    makes no call of the safety check, whatever [Available] is. *)
Theorem C5_exceeds_need_first (s : BankerSystem) (pid : Z) (req : list Z)
    (verbose : bool) :
  wf s → 0 ≤ pid < n s → Z.of_nat (length req) = m s →
  (∃ j, (j < Z.to_nat (m s))%nat ∧ need_at s pid j < req !!! j) →
  request_at s pid req verbose = (0%nat, Ok (ExceedsNeed, s)) ∧
  request s pid req verbose = (0%nat, Ok (false, s)).
Proof.
  intros Hwf Hpid Hlen (j & Hj & Hgt).
  assert (request_at s pid req verbose = (0%nat, Ok (ExceedsNeed, s))) as Hat.
  { rewrite request_at_eval by done.
    destruct (vec_le req (needM s !!! Z.to_nat pid)) eqn:Hle; [|done].
    pose proof (proj1 (vec_le_total req _ (Z.to_nat (m s)) ltac:(lia)
                        (needM_row_length s Hwf pid Hpid)) Hle j Hj) as Hj'.
    rewrite needM_at in Hj' by done. lia. }
  split; [done|]. by rewrite request_unfold, Hat.
Qed.

Lemma C5_exceeds_need_first_witness :
  request_at scenario_A 1 [2; 0; 0] true
    = (0%nat, Ok (ExceedsNeed, scenario_A)) ∧
  request scenario_A 1 [2; 0; 0] true = (0%nat, Ok (false, scenario_A)).
Proof.
  apply (C5_exceeds_need_first scenario_A 1 [2; 0; 0] true).
  - split; simpl; try lia; try reflexivity; repeat constructor.
  - simpl; lia.
  - reflexivity.
  - exists 0%nat. split; [simpl; lia|vm_compute; reflexivity].
Defined.

(** C6: a granted request (returns true), on every ledger, leaves
    [Available - req] and [Allocation[pid] + req] component by component,
    every other Allocation row, Max and the dimensions as they were. *)
Theorem C6_granted_request_effect (s : BankerSystem) (pid : Z) (req : list Z)
    (verbose : bool) (c : nat) (s' : BankerSystem) :
  request s pid req verbose = (c, Ok (true, s')) →
  n s' = n s ∧ m s' = m s ∧ max_need s' = max_need s ∧
  length (available s') = (length (available s) `min` length req)%nat ∧
  (∀ j a r, available s !! j = Some a → req !! j = Some r →
            available s' !! j = Some (a - r)) ∧
  length (allocation s') = length (allocation s) ∧
  (∀ i, i ≠ Z.to_nat pid → allocation s' !! i = allocation s !! i) ∧
  ∃ row row',
    allocation s !! Z.to_nat pid = Some row ∧
    allocation s' !! Z.to_nat pid = Some row' ∧
    length row' = (length row `min` length req)%nat ∧
    ∀ j a r, row !! j = Some a → req !! j = Some r →
             row' !! j = Some (a + r).
Proof.
  rewrite request_unfold.
  destruct (request_at s pid req verbose) as [c0 [[e s0]| |]] eqn:Hreq;
    [|done..].
  intros [= -> Hg ->].
  apply request_at_inv in Hreq
    as [[He ->]|(-> & _ & Hpid & Hlen & row & Hrow & ->)].
  { by destruct e. }
  simpl. repeat split.
  - apply length_zip_with.
  - intros j a r Ha Hr. unfold vec_sub. rewrite lookup_zip_with, Ha, Hr. done.
  - apply length_insert.
  - intros i Hi. by apply list_lookup_insert_ne.
  - exists row, (vec_add row req). split; [done|].
    split; [apply list_lookup_insert_eq; by eapply lookup_lt_Some|].
    split; [apply length_zip_with|].
    intros j a r Ha Hr. unfold vec_add. rewrite lookup_zip_with, Ha, Hr. done.
Qed.

Lemma C6_granted_request_effect_witness :
  ∃ s', request scenario_A 1 [1; 0; 2] true = (1%nat, Ok (true, s')) ∧
        available s' = [2; 3; 0] ∧
        allocation s' !! 1%nat = Some [3; 0; 2] ∧
        max_need s' = max_need scenario_A.
Proof.
  eexists. split; [vm_compute; reflexivity|].
  split; [reflexivity|]. split; [reflexivity|].
  refine (proj1 (proj2 (proj2
    (C6_granted_request_effect scenario_A 1 [1; 0; 2] true 1 _ _)))).
  vm_compute. reflexivity.
Defined.

(** C7: on a well-dimensioned ledger, a committed request and a committed
    release keep, for every resource class [j], the sum of [Available[j]]
    and of [Allocation[i][j]] over all processes. *)
Theorem C7_conservation (s : BankerSystem) (pid : Z) (v : list Z)
    (verbose : bool) (c : nat) (s' : BankerSystem) (j : nat) :
  wf s → (j < Z.to_nat (m s))%nat →
  request s pid v verbose = (c, Ok (true, s')) ∨
  release s pid v verbose = (c, Ok (true, s')) →
  total s' j = total s j.
Proof.
  intros Hwf Hj Hcall.
  destruct (decide (pid < 0 ∨ n s ≤ pid ∨ Z.of_nat (length v) ≠ m s))
    as [Hbad|Hgood].
  { rewrite request_unfold, request_at_bad_args, release_bad_args in Hcall
      by done.
    by destruct Hcall. }
  assert (0 ≤ pid < n s) as Hpid by lia.
  assert (Z.of_nat (length v) = m s) as Hlen by lia.
  destruct Hcall as [Hreq|Hrel].
  - rewrite request_unfold, request_at_eval in Hreq by done.
    destruct (negb (vec_le v (needM s !!! Z.to_nat pid))); [done|].
    destruct (negb (vec_le v (available s))); [done|].
    destruct (safety_run _ _) as [[[] sq]| |]; [|done..].
    injection Hreq as _ <-.
    by eapply transfer_total; [apply speculated_transfer|..].
  - rewrite release_eval in Hrel by done.
    destruct (vec_le v _); [|done].
    injection Hrel as _ <-.
    by eapply transfer_total; [apply released_transfer|..].
Qed.

Lemma C7_conservation_witness :
  ∃ s', request scenario_A 1 [1; 0; 2] true = (1%nat, Ok (true, s')) ∧
        total s' 0 = total scenario_A 0.
Proof.
  eexists. split; [vm_compute; reflexivity|].
  apply (C7_conservation scenario_A 1 [1; 0; 2] true 1).
  - split; simpl; try lia; try reflexivity; repeat constructor.
  - simpl; lia.
  - left. vm_compute. reflexivity.
Defined.

(** C8: on a well-dimensioned ledger, [request] and [release] end by an
    exception exactly when [pid] is outside [0, n) or the vector's length
    is not [m]; the exception is then the [ValueError] raised on entry, and
    otherwise the call returns a boolean. *)
Theorem C8_raise_iff_bad_arguments (s : BankerSystem) (pid : Z) (v : list Z)
    (verbose : bool) :
  wf s →
  let bad := pid < 0 ∨ n s ≤ pid ∨ Z.of_nat (length v) ≠ m s in
  (raises (request s pid v verbose) ↔ bad) ∧
  (raises (release s pid v verbose) ↔ bad) ∧
  (bad → request s pid v verbose = (0%nat, Raise ValueError) ∧
         release s pid v verbose = (0%nat, Raise ValueError)) ∧
  (¬ bad → returns (request s pid v verbose) ∧
           returns (release s pid v verbose)).
Proof.
  intros Hwf bad.
  assert (bad → request s pid v verbose = (0%nat, Raise ValueError) ∧
                release s pid v verbose = (0%nat, Raise ValueError)) as Hbad.
  { intros Hb. split; [|by apply release_bad_args].
    by rewrite request_unfold, request_at_bad_args. }
  assert (¬ bad → returns (request s pid v verbose) ∧
                  returns (release s pid v verbose)) as Hgood.
  { intros Hg. unfold bad in Hg.
    assert (0 ≤ pid < n s) as Hpid by lia.
    assert (Z.of_nat (length v) = m s) as Hlen by lia.
    split.
    - rewrite request_unfold, request_at_eval by done.
      destruct (negb (vec_le v (needM s !!! Z.to_nat pid))); [by eexists|].
      destruct (negb (vec_le v (available s))); [by eexists|].
      destruct (safety_run_spec _ (speculated_wf s Hwf pid Hpid v Hlen))
        as (st & Hrun & _).
      change (n (speculated s pid v)) with (n s) in Hrun. rewrite Hrun.
      destruct (forallb id (finish st)); by eexists.
    - rewrite release_eval by done.
      destruct (vec_le v _); by eexists. }
  split; [|split; [|done]].
  - split; [|intros Hb; exists ValueError; by rewrite (proj1 (Hbad Hb))].
    intros [e He]. destruct (decide bad) as [|Hg]; [done|].
    destruct (proj1 (Hgood Hg)) as [a Ha]. congruence.
  - split; [|intros Hb; exists ValueError; by rewrite (proj2 (Hbad Hb))].
    intros [e He]. destruct (decide bad) as [|Hg]; [done|].
    destruct (proj2 (Hgood Hg)) as [a Ha]. congruence.
Qed.

Lemma C8_raise_iff_bad_arguments_witness :
  request scenario_A 5 [1; 0; 2] true = (0%nat, Raise ValueError) ∧
  release scenario_A (-1) [1; 0; 2] true = (0%nat, Raise ValueError).
Proof.
  assert (wf scenario_A) as Hwf
    by (split; simpl; try lia; try reflexivity; repeat constructor).
  split.
  - apply (proj1 (proj2 (proj2
      (C8_raise_iff_bad_arguments scenario_A 5 [1; 0; 2] true Hwf)))).
    right. left. simpl. lia.
  - apply (proj1 (proj2 (proj2
      (C8_raise_iff_bad_arguments scenario_A (-1) [1; 0; 2] true Hwf)))).
    left. lia.
Defined.

(** C9: on a well-dimensioned ledger the safety check returns a pair
    [(safe, seq)] in which [seq] has no duplicates, holds indices of
    [0, n) only, and has length [n] exactly when [safe] is true. *)
Theorem C9_sequence_shape (s : BankerSystem) (verbose : bool) :
  wf s →
  ∃ safe sq,
    safety_check s verbose = (1%nat, Ok (safe, sq)) ∧
    NoDup sq ∧
    (∀ i, i ∈ sq → 0 ≤ i < n s) ∧
    (safe = true ↔ Z.of_nat (length sq) = n s).
Proof.
  intros Hwf.
  destruct (safety_run_spec s Hwf) as (st & Hrun & Hinv & _).
  exists (forallb id (finish st)), (seq st).
  rewrite safety_check_unfold, Hrun. split; [done|].
  pose proof (inv_completion _ _ Hinv) as Hc.
  split; [by eapply completion_NoDup|].
  split; [intros i; by eapply completion_range|].
  rewrite safe_flag by done. pose proof (wf_n _ Hwf). lia.
Qed.

Lemma C9_sequence_shape_witness :
  ∃ safe sq,
    safety_check scenario_A true = (1%nat, Ok (safe, sq)) ∧
    NoDup sq ∧
    (∀ i, i ∈ sq → 0 ≤ i < n scenario_A) ∧
    (safe = true ↔ Z.of_nat (length sq) = n scenario_A).
Proof.
  apply (C9_sequence_shape scenario_A true).
  split; simpl; try lia; try reflexivity; repeat constructor.
Defined.

(** C10: the core does not check the sign of a request: on a ledger that
    satisfies I1 and I2, a request vector of the right length with a
    negative component is granted without any exception, and leaves a
    negative Allocation entry. *)
Theorem C10_negative_request_granted :
  ∃ (s : BankerSystem) (pid : Z) (req : list Z) (s' : BankerSystem) (j : nat),
    wf s ∧ I1 s ∧ I2 s ∧
    0 ≤ pid < n s ∧ Z.of_nat (length req) = m s ∧
    (∃ r, r ∈ req ∧ r < 0) ∧
    (∀ verbose, request s pid req verbose = (1%nat, Ok (true, s'))) ∧
    (j < Z.to_nat (m s))%nat ∧ alloc_at s' pid j < 0 ∧ ¬ I1 s'.
Proof.
  exists tiny, 0, [-1], (speculated tiny 0 [-1]), 0%nat.
  split; [split; simpl; try lia; try reflexivity; repeat constructor|].
  split.
  { intros i j Hi Hj. simpl in Hi, Hj.
    assert (i = 0) as -> by lia. assert (j = 0%nat) as -> by lia.
    vm_compute. split; discriminate. }
  split; [repeat constructor; lia|].
  split; [simpl; lia|]. split; [reflexivity|].
  split; [exists (-1); split; [apply list_elem_of_singleton; done|lia]|].
  split; [intros []; vm_compute; reflexivity|].
  split; [simpl; lia|]. split; [vm_compute; reflexivity|].
  intros HI1. specialize (HI1 0 0%nat ltac:(simpl; lia) ltac:(simpl; lia)).
  vm_compute in HI1. destruct HI1 as [H _]. by apply H.
Qed.


(** * Further properties of the ledger *)

(** ** What the returned sequence means *)

Lemma completion_split s sq p i q :
  completion s sq → sq = p ++ i :: q →
  0 ≤ i < n s ∧ (i ∉ p) ∧ fits s p i.
Proof.
  intros Hc. revert p i q.
  induction Hc as [|p0 k Hc IH Hk Hnew Hfit]; intros p i q Heq.
  { by destruct p. }
  destruct q as [|x q _] using rev_ind.
  - apply app_inj_tail in Heq as [-> ->]. done.
  - rewrite app_comm_cons, app_assoc in Heq.
    apply app_inj_tail in Heq as [-> ->]. by eapply IH.
Qed.

Lemma not_fits_class s p i :
  ¬ fits s p i →
  ∃ j, (j < Z.to_nat (m s))%nat ∧ work_at s p j < need_at s i j.
Proof.
  unfold fits. generalize (Z.to_nat (m s)) as k.
  induction k as [|k IH]; intros Hn.
  { destruct Hn. intros j Hj. lia. }
  destruct (decide (need_at s i k ≤ work_at s p k)) as [Hk|Hk].
  - destruct IH as (j & Hj & Hlt).
    + intros Hall. apply Hn. intros j Hj.
      destruct (decide (j = k)) as [->|]; [done|]. apply Hall. lia.
    + exists j. split; [lia|done].
  - exists k. split; lia.
Qed.

(** X1: in the sequence returned by the safety check, every process is an
    index of [0, n) that did not occur before and whose Need is covered,
    class by class, by Available plus the Allocation of the processes
    before it. *)
Theorem X1_sequence_is_completion_order (s : BankerSystem) (verbose safe : bool)
    (sq p q : list Z) (i : Z) :
  wf s →
  safety_check s verbose = (1%nat, Ok (safe, sq)) →
  sq = p ++ i :: q →
  0 ≤ i < n s ∧ (i ∉ p) ∧
  ∀ j, (j < Z.to_nat (m s))%nat →
    need_at s i j ≤ avail_at s j + sumZ (λ k, alloc_at s k j) p.
Proof.
  intros Hwf Hrun Hsq.
  destruct (safety_run_spec s Hwf) as (st & Hrun' & Hinv & _).
  rewrite safety_check_unfold, Hrun' in Hrun. injection Hrun as _ <-.
  by eapply completion_split; [apply Hinv|].
Qed.

Lemma X1_sequence_is_completion_order_witness :
  0 ≤ 4 < n scenario_A ∧ (4 ∉ [1; 3]) ∧
  ∀ j, (j < Z.to_nat (m scenario_A))%nat →
    need_at scenario_A 4 j
    ≤ avail_at scenario_A j + sumZ (λ k, alloc_at scenario_A k j) [1; 3].
Proof.
  apply (X1_sequence_is_completion_order scenario_A true true
           [1; 3; 4; 0; 2] [1; 3] [0; 2] 4).
  - split; simpl; try lia; try reflexivity; repeat constructor.
  - vm_compute. reflexivity.
  - reflexivity.
Defined.

(** X2: with non-negative allocations on a well-dimensioned ledger, the
    safety check answers true exactly when some order exists in which all
    [n] processes can run to completion one after the other. *)
Theorem X2_safe_iff_some_order_completes (s : BankerSystem) (verbose : bool) :
  wf s → alloc_nonneg s →
  (∃ sq, safety_check s verbose = (1%nat, Ok (true, sq))) ↔
  (∃ p, completion s p ∧ length p = Z.to_nat (n s)).
Proof.
  intros Hwf Hnn.
  destruct (safety_run_spec s Hwf) as (st & Hrun & Hinv & Hst).
  rewrite safety_check_unfold, Hrun. split.
  - intros [sq [= Hflag <-]]. exists (seq st).
    split; [apply Hinv|]. by apply (safe_flag s).
  - intros (p & Hp & Hlen). exists (seq st). do 3 f_equal.
    apply (safe_flag s); [done|].
    apply completion_full; [apply Hinv|]. intros i Hi.
    eapply completion_subset; [done..|].
    by apply (completion_full s p).
Qed.

Lemma X2_safe_iff_some_order_completes_witness :
  (∃ sq, safety_check scenario_A true = (1%nat, Ok (true, sq))) ↔
  (∃ p, completion scenario_A p ∧ length p = Z.to_nat (n scenario_A)).
Proof.
  apply (X2_safe_iff_some_order_completes scenario_A true).
  - split; simpl; try lia; try reflexivity; repeat constructor.
  - repeat constructor; lia.
Defined.

(** X3: every process the safety check leaves out of its sequence is
    blocked: in some class its Need exceeds Available plus the Allocation
    of all the processes in the sequence. *)
Theorem X3_left_out_process_is_blocked (s : BankerSystem) (verbose safe : bool)
    (sq : list Z) (i : Z) :
  wf s →
  safety_check s verbose = (1%nat, Ok (safe, sq)) →
  0 ≤ i < n s → i ∉ sq →
  ∃ j, (j < Z.to_nat (m s))%nat ∧
       avail_at s j + sumZ (λ k, alloc_at s k j) sq < need_at s i j.
Proof.
  intros Hwf Hrun Hi Hout.
  destruct (safety_run_spec s Hwf) as (st & Hrun' & Hinv & Hst).
  rewrite safety_check_unfold, Hrun' in Hrun. injection Hrun as _ <-.
  by apply not_fits_class, Hst.
Qed.

Lemma X3_left_out_process_is_blocked_witness :
  ∃ j, (j < 3)%nat ∧
       avail_at (speculated scenario_A 0 [1; 0; 2]) j
       + sumZ (λ k, alloc_at (speculated scenario_A 0 [1; 0; 2]) k j) []
       < need_at (speculated scenario_A 0 [1; 0; 2]) 0 j.
Proof.
  apply (X3_left_out_process_is_blocked (speculated scenario_A 0 [1; 0; 2])
           true false [] 0).
  - split; simpl; try lia; try reflexivity; repeat constructor.
  - vm_compute. reflexivity.
  - simpl. lia.
  - apply not_elem_of_nil.
Defined.

(** ** The comparisons of [request] and [release], class by class *)

Section comparisons.
Context (s : BankerSystem) (Hwf : wf s).
Context (pid : Z) (Hpid : 0 ≤ pid < n s).
Context (v : list Z) (Hlen : Z.of_nat (length v) = m s).

Lemma vec_le_need :
  vec_le v (needM s !!! Z.to_nat pid) = true ↔
  ∀ j, (j < Z.to_nat (m s))%nat → v !!! j ≤ need_at s pid j.
Proof.
  rewrite (vec_le_total _ _ (Z.to_nat (m s)));
    [|lia|by apply needM_row_length].
  split; intros H j Hj; specialize (H j Hj).
  - by rewrite needM_at in H.
  - by rewrite needM_at.
Qed.

Lemma vec_le_avail :
  vec_le v (available s) = true ↔
  ∀ j, (j < Z.to_nat (m s))%nat → v !!! j ≤ avail_at s j.
Proof.
  by rewrite (vec_le_total _ _ (Z.to_nat (m s))); [|lia|apply Hwf].
Qed.

Lemma vec_le_alloc :
  vec_le v (allocation s !!! Z.to_nat pid) = true ↔
  ∀ j, (j < Z.to_nat (m s))%nat → v !!! j ≤ alloc_at s pid j.
Proof.
  by rewrite (vec_le_total _ _ (Z.to_nat (m s)));
    [|lia|apply alloc_row_length].
Qed.
End comparisons.

(** What a returning [release] did, on any ledger whatsoever. *)
Lemma release_inv s pid rel verbose c b s' :
  release s pid rel verbose = (c, Ok (b, s')) →
  c = 0%nat ∧ 0 ≤ pid < n s ∧ Z.of_nat (length rel) = m s ∧
  ∃ row, allocation s !! Z.to_nat pid = Some row ∧
    ((b = false ∧ vec_le rel row = false ∧ s' = s) ∨
     (b = true ∧ vec_le rel row = true ∧
      s' = {| n := n s; m := m s;
              available := vec_add (available s) rel;
              max_need := max_need s;
              allocation :=
                <[Z.to_nat pid := vec_sub row rel]> (allocation s) |})).
Proof.
  unfold release.
  case_bool_decide as Hpid; [done|]. case_bool_decide as Hlen; [done|].
  rewrite bind_traced_lift.
  destruct (getitem (allocation s) pid) as [row| |] eqn:Hrow; [|done..].
  apply getitem_Ok_inv in Hrow as Hrow'; [|lia].
  apply lookup_lt_Some in Hrow' as Hlt.
  destruct (vec_le rel row) eqn:Hle; simpl.
  2:{ intros [= <- <- <-]. repeat split; try lia. exists row. auto. }
  rewrite bind_traced_lift. rewrite bind_traced_lift, setitem_Ok by lia.
  rewrite bind_traced_lift.
  destruct (if verbose then _ else _); [|done..].
  intros [= <- <- <-]. repeat split; try lia. exists row. auto.
Qed.

(** X4: a granted request leaves a well-dimensioned ledger on which the
    safety check answers true. *)
Theorem X4_granted_request_leaves_safe_state (s : BankerSystem) (pid : Z)
    (req : list Z) (verbose verbose' : bool) (c : nat) (s' : BankerSystem) :
  wf s →
  request s pid req verbose = (c, Ok (true, s')) →
  wf s' ∧ ∃ sq, safety_check s' verbose' = (1%nat, Ok (true, sq)).
Proof.
  intros Hwf Hreq.
  destruct (decide (pid < 0 ∨ n s ≤ pid ∨ Z.of_nat (length req) ≠ m s))
    as [Hbad|Hgood].
  { by rewrite request_unfold, request_at_bad_args in Hreq. }
  assert (0 ≤ pid < n s) as Hpid by lia.
  assert (Z.of_nat (length req) = m s) as Hlen by lia.
  rewrite request_unfold, request_at_eval in Hreq by done.
  destruct (negb (vec_le req (needM s !!! Z.to_nat pid))); [done|].
  destruct (negb (vec_le req (available s))); [done|].
  destruct (safety_run _ _) as [[[] sq]| |] eqn:Hrun; [|done..].
  injection Hreq as _ <-. split; [by apply speculated_wf|].
  exists sq. rewrite safety_check_unfold.
  change (n (speculated s pid req)) with (n s). by rewrite Hrun.
Qed.

Lemma X4_granted_request_leaves_safe_state_witness :
  ∃ s', request scenario_A 1 [1; 0; 2] true = (1%nat, Ok (true, s')) ∧
        wf s' ∧ ∃ sq, safety_check s' false = (1%nat, Ok (true, sq)).
Proof.
  eexists. split; [vm_compute; reflexivity|].
  apply (X4_granted_request_leaves_safe_state scenario_A 1 [1; 0; 2]
           true false 1).
  - split; simpl; try lia; try reflexivity; repeat constructor.
  - vm_compute. reflexivity.
Defined.

(** X5: a request within [Need[pid]] that exceeds [Available] in some
    class leaves by the second rejection: it returns false, keeps the
    ledger and makes no call of the safety check. *)
Theorem X5_exceeds_available_second (s : BankerSystem) (pid : Z)
    (req : list Z) (verbose : bool) :
  wf s → 0 ≤ pid < n s → Z.of_nat (length req) = m s →
  (∀ j, (j < Z.to_nat (m s))%nat → req !!! j ≤ need_at s pid j) →
  (∃ j, (j < Z.to_nat (m s))%nat ∧ avail_at s j < req !!! j) →
  request_at s pid req verbose = (0%nat, Ok (ExceedsAvailable, s)) ∧
  request s pid req verbose = (0%nat, Ok (false, s)).
Proof.
  intros Hwf Hpid Hlen Hneed (j & Hj & Hgt).
  assert (request_at s pid req verbose
          = (0%nat, Ok (ExceedsAvailable, s))) as Hat.
  { rewrite request_at_eval by done.
    rewrite (proj2 (vec_le_need s Hwf pid Hpid req Hlen) Hneed). simpl.
    destruct (vec_le req (available s)) eqn:Hle; [|done].
    pose proof (proj1 (vec_le_avail s Hwf req Hlen) Hle j Hj). lia. }
  split; [done|]. by rewrite request_unfold, Hat.
Qed.

Lemma X5_exceeds_available_second_witness :
  request_at scenario_A 0 [4; 0; 0] true
    = (0%nat, Ok (ExceedsAvailable, scenario_A)) ∧
  request scenario_A 0 [4; 0; 0] true = (0%nat, Ok (false, scenario_A)).
Proof.
  apply (X5_exceeds_available_second scenario_A 0 [4; 0; 0] true).
  - split; simpl; try lia; try reflexivity; repeat constructor.
  - simpl; lia.
  - reflexivity.
  - intros [|[|[|j]]] Hj; [vm_compute; discriminate..|simpl in Hj; lia].
  - exists 0%nat. split; [simpl; lia|vm_compute; reflexivity].
Defined.

(** X6: on a well-dimensioned ledger a request with in-range arguments is
    granted exactly when it is within [Need[pid]] and within [Available]
    in every class and the safety check answers true on the ledger with the
    trial allocation; the ledger committed is that one. *)
Theorem X6_request_granted_iff (s : BankerSystem) (pid : Z) (req : list Z)
    (verbose : bool) :
  wf s → 0 ≤ pid < n s → Z.of_nat (length req) = m s →
  ((∃ c s', request s pid req verbose = (c, Ok (true, s'))) ↔
   ((∀ j, (j < Z.to_nat (m s))%nat → req !!! j ≤ need_at s pid j) ∧
    (∀ j, (j < Z.to_nat (m s))%nat → req !!! j ≤ avail_at s j) ∧
    ∃ sq, safety_check (speculated s pid req) verbose
          = (1%nat, Ok (true, sq)))) ∧
  (∀ c s', request s pid req verbose = (c, Ok (true, s')) →
           c = 1%nat ∧ s' = speculated s pid req).
Proof.
  intros Hwf Hpid Hlen.
  rewrite request_unfold, request_at_eval by done.
  rewrite <- (vec_le_need s Hwf pid Hpid req Hlen).
  rewrite <- (vec_le_avail s Hwf req Hlen).
  rewrite safety_check_unfold.
  change (n (speculated s pid req)) with (n s).
  destruct (vec_le req (needM s !!! Z.to_nat pid)); simpl.
  2:{ split; [|done]. split; [by intros (? & ? & ?)|by intros (? & _)]. }
  destruct (vec_le req (available s)); simpl.
  2:{ split; [|done]. split; [by intros (? & ? & ?)|by intros (_ & ? & _)]. }
  destruct (safety_run _ _) as [[[] sq]| |]; simpl.
  - split; [|by intros c s' [= <- <-]].
    split; [by eauto|]. intros _. by eauto.
  - split; [|done]. split; [by intros (? & ? & ?)|].
    by intros (_ & _ & ? & ?).
  - split; [|done]. split; [by intros (? & ? & ?)|].
    by intros (_ & _ & ? & ?).
  - split; [|done]. split; [by intros (? & ? & ?)|].
    by intros (_ & _ & ? & ?).
Qed.

Lemma X6_request_granted_iff_witness :
  request scenario_A 1 [1; 0; 2] true
  = (1%nat, Ok (true, speculated scenario_A 1 [1; 0; 2])).
Proof.
  assert (wf scenario_A) as Hwf
    by (split; simpl; try lia; try reflexivity; repeat constructor).
  destruct (X6_request_granted_iff scenario_A 1 [1; 0; 2] true Hwf
              ltac:(simpl; lia) eq_refl) as [Hiff Hwhat].
  destruct (proj2 Hiff) as (c & s' & Hreq).
  - split; [|split].
    + intros [|[|[|j]]] Hj; [vm_compute; discriminate..|simpl in Hj; lia].
    + intros [|[|[|j]]] Hj; [vm_compute; discriminate..|simpl in Hj; lia].
    + eexists. vm_compute. reflexivity.
  - destruct (Hwhat c s' Hreq) as [-> ->]. exact Hreq.
Defined.

(** X7: a request with in-range arguments runs the safety check at most
    once, and exactly once when it is within [Need[pid]] and [Available]. *)
Theorem X7_request_safety_check_calls (s : BankerSystem) (pid : Z)
    (req : list Z) (verbose : bool) :
  wf s → 0 ≤ pid < n s → Z.of_nat (length req) = m s →
  ((request s pid req verbose).1 ≤ 1)%nat ∧
  ((request s pid req verbose).1 = 1%nat ↔
   (∀ j, (j < Z.to_nat (m s))%nat →
      req !!! j ≤ need_at s pid j ∧ req !!! j ≤ avail_at s j)).
Proof.
  intros Hwf Hpid Hlen.
  rewrite request_unfold, request_at_eval by done.
  assert ((∀ j, (j < Z.to_nat (m s))%nat →
             req !!! j ≤ need_at s pid j ∧ req !!! j ≤ avail_at s j) ↔
          vec_le req (needM s !!! Z.to_nat pid) = true ∧
          vec_le req (available s) = true) as ->.
  { rewrite (vec_le_need s Hwf pid Hpid req Hlen).
    rewrite (vec_le_avail s Hwf req Hlen).
    split; [intros H; split; intros j Hj; by apply H|].
    intros [H1 H2] j Hj. auto. }
  destruct (vec_le req (needM s !!! Z.to_nat pid)); simpl.
  2:{ split; [lia|]. split; [done|by intros [? _]]. }
  destruct (vec_le req (available s)); simpl.
  2:{ split; [lia|]. split; [done|by intros [_ ?]]. }
  destruct (safety_run _ _) as [[[] sq]| |]; simpl; split; (lia || done).
Qed.

Lemma X7_request_safety_check_calls_witness :
  Nat.le (request scenario_A 0 [1; 0; 2] true).1 1 ∧
  ((request scenario_A 0 [1; 0; 2] true).1 = 1%nat ↔
   (∀ j, (j < Z.to_nat (m scenario_A))%nat →
      ([1; 0; 2] : list Z) !!! j ≤ need_at scenario_A 0 j ∧
      ([1; 0; 2] : list Z) !!! j ≤ avail_at scenario_A j)).
Proof.
  apply (X7_request_safety_check_calls scenario_A 0 [1; 0; 2] true).
  - split; simpl; try lia; try reflexivity; repeat constructor.
  - simpl; lia.
  - reflexivity.
Defined.

(** ** Committed transitions *)

Lemma vec_sub_add a b : (length a ≤ length b)%nat → vec_sub (vec_add a b) b = a.
Proof.
  revert b. induction a as [|x a IH]; intros [|y b] Hlen; simpl in *;
    try done; try lia.
  f_equal; [lia|]. apply IH. lia.
Qed.

Lemma vec_add_sub a b : (length a ≤ length b)%nat → vec_add (vec_sub a b) b = a.
Proof.
  revert b. induction a as [|x a IH]; intros [|y b] Hlen; simpl in *;
    try done; try lia.
  f_equal; [lia|]. apply IH. lia.
Qed.

Lemma request_false_same s pid v verbose c s' :
  request s pid v verbose = (c, Ok (false, s')) → s' = s.
Proof.
  rewrite request_unfold.
  destruct (request_at s pid v verbose) as [c0 [[e s0]| |]] eqn:Hreq;
    [|done..].
  intros [= -> Hg ->].
  apply request_at_inv in Hreq as [[_ ->]|(-> & _)]; done.
Qed.

Section committed.
Context (s : BankerSystem) (Hwf : wf s).

Lemma request_true_speculated pid v verbose c s' :
  request s pid v verbose = (c, Ok (true, s')) →
  c = 1%nat ∧ 0 ≤ pid < n s ∧ Z.of_nat (length v) = m s ∧
  s' = speculated s pid v ∧
  vec_le v (needM s !!! Z.to_nat pid) = true ∧
  vec_le v (available s) = true ∧
  ∃ sq, safety_run (S (Z.to_nat (n s))) (speculated s pid v) = Ok (true, sq).
Proof.
  intros Hreq.
  destruct (decide (pid < 0 ∨ n s ≤ pid ∨ Z.of_nat (length v) ≠ m s))
    as [Hbad|Hgood].
  { by rewrite request_unfold, request_at_bad_args in Hreq. }
  assert (0 ≤ pid < n s) as Hpid by lia.
  assert (Z.of_nat (length v) = m s) as Hlen by lia.
  rewrite request_unfold, request_at_eval in Hreq by done.
  destruct (vec_le v (needM s !!! Z.to_nat pid)); [|done].
  destruct (vec_le v (available s)); [|done]. simpl in Hreq.
  destruct (safety_run _ _) as [[[] sq]| |] eqn:Hrun; [|done..].
  injection Hreq as <- <-. repeat split; try done; try lia. by exists sq.
Qed.

Lemma release_true_released pid v verbose c s' :
  release s pid v verbose = (c, Ok (true, s')) →
  c = 0%nat ∧ 0 ≤ pid < n s ∧ Z.of_nat (length v) = m s ∧
  s' = released s pid v ∧
  vec_le v (allocation s !!! Z.to_nat pid) = true.
Proof.
  intros Hrel.
  destruct (decide (pid < 0 ∨ n s ≤ pid ∨ Z.of_nat (length v) ≠ m s))
    as [Hbad|Hgood].
  { by rewrite release_bad_args in Hrel. }
  assert (0 ≤ pid < n s) as Hpid by lia.
  assert (Z.of_nat (length v) = m s) as Hlen by lia.
  rewrite release_eval in Hrel by done.
  destruct (vec_le v _); [|done].
  injection Hrel as <- <-. done.
Qed.

Lemma speculated_released pid v :
  0 ≤ pid < n s → Z.of_nat (length v) = m s →
  speculated (released s pid v) pid v = s.
Proof.
  intros Hpid Hlen.
  pose proof (wf_available _ Hwf) as Hav.
  pose proof (wf_alloc_rows _ Hwf) as Hrows.
  pose proof (alloc_row_length s Hwf pid Hpid) as Hrow.
  unfold speculated, released. destruct s as [n0 m0 av mx al]. simpl in *.
  f_equal.
  - apply vec_sub_add. lia.
  - rewrite list_lookup_total_insert_eq by lia.
    rewrite vec_add_sub by lia. rewrite list_insert_insert_eq.
    apply list_insert_id, list_lookup_lookup_total_lt. lia.
Qed.

Lemma released_speculated pid v :
  0 ≤ pid < n s → Z.of_nat (length v) = m s →
  released (speculated s pid v) pid v = s.
Proof.
  intros Hpid Hlen.
  pose proof (wf_available _ Hwf) as Hav.
  pose proof (wf_alloc_rows _ Hwf) as Hrows.
  pose proof (alloc_row_length s Hwf pid Hpid) as Hrow.
  unfold speculated, released. destruct s as [n0 m0 av mx al]. simpl in *.
  f_equal.
  - apply vec_add_sub. lia.
  - rewrite list_lookup_total_insert_eq by lia.
    rewrite vec_sub_add by lia. rewrite list_insert_insert_eq.
    apply list_insert_id, list_lookup_lookup_total_lt. lia.
Qed.

Lemma speculated_nonneg pid v :
  0 ≤ pid < n s → Z.of_nat (length v) = m s →
  alloc_nonneg s → Forall (Z.le 0) v → alloc_nonneg (speculated s pid v).
Proof.
  intros Hpid Hlen Hnn Hv. unfold alloc_nonneg, speculated. simpl.
  apply Forall_insert; [done|].
  apply (Forall_lookup_total_2 (Z.le 0)). intros j. unfold vec_add.
  rewrite length_zip_with, alloc_row_length by done. intros Hj.
  rewrite zip_with_total; [|rewrite alloc_row_length by done|]; try lia.
  pose proof (alloc_at_nonneg s pid j Hnn) as Ha. unfold alloc_at in Ha.
  pose proof (Forall_lookup_total_1 _ _ j Hv ltac:(lia)). lia.
Qed.

(** Giving back part of what a process holds keeps a safe ledger safe. *)
Lemma released_safe pid v sq :
  0 ≤ pid < n s → Z.of_nat (length v) = m s →
  alloc_nonneg s →
  (∀ j, (j < Z.to_nat (m s))%nat → 0 ≤ v !!! j ≤ alloc_at s pid j) →
  safety_run (S (Z.to_nat (n s))) s = Ok (true, sq) →
  alloc_nonneg (released s pid v) ∧
  ∃ sq', safety_run (S (Z.to_nat (n s))) (released s pid v) = Ok (true, sq').
Proof.
  intros Hpid Hlen Hnn Hv Hsafe.
  pose proof (released_wf s Hwf pid Hpid v Hlen) as Hwf'.
  pose proof (released_transfer s Hwf pid Hpid v Hlen) as Htr.
  assert (alloc_nonneg (released s pid v)) as Hnn'.
  { unfold alloc_nonneg, released. simpl. apply Forall_insert; [done|].
    apply (Forall_lookup_total_2 (Z.le 0)). intros j. unfold vec_sub.
    rewrite length_zip_with, alloc_row_length by done. intros Hj.
    rewrite zip_with_total; [|rewrite alloc_row_length by done|]; try lia.
    specialize (Hv j ltac:(lia)). unfold alloc_at in Hv. lia. }
  split; [done|].
  destruct (safety_run_spec s Hwf) as (st & Hrun & Hinv & _).
  rewrite Hrun in Hsafe. injection Hsafe as Hflag _.
  apply (proj1 (safe_flag s st Hinv)) in Hflag.
  destruct (safety_run_spec _ Hwf') as (st' & Hrun' & Hinv' & Hst').
  change (n (released s pid v)) with (n s) in Hrun'.
  exists (seq st'). rewrite Hrun'.
  do 2 f_equal. apply (proj2 (safe_flag _ st' Hinv')).
  apply completion_full; [apply Hinv'|].
  intros i Hi. eapply completion_subset; [done| |done|].
  - eapply transfer_completion; [done| |apply Hinv].
    intros j Hj. specialize (Hv j Hj). simpl. lia.
  - by apply (completion_full s); [apply Hinv|..].
Qed.
End committed.

(** X8: on a well-dimensioned ledger a release with in-range arguments
    is committed when the vector is within [Allocation[pid]] in every
    class, and otherwise returns false with the ledger as it was. *)
Theorem X8_release_accepts_iff_within_allocation (s : BankerSystem) (pid : Z)
    (rel : list Z) (verbose : bool) :
  wf s → 0 ≤ pid < n s → Z.of_nat (length rel) = m s →
  ((∀ j, (j < Z.to_nat (m s))%nat → rel !!! j ≤ alloc_at s pid j) →
   release s pid rel verbose = (0%nat, Ok (true, released s pid rel))) ∧
  ((∃ j, (j < Z.to_nat (m s))%nat ∧ alloc_at s pid j < rel !!! j) →
   release s pid rel verbose = (0%nat, Ok (false, s))).
Proof.
  intros Hwf Hpid Hlen. rewrite release_eval by done. split.
  - intros Hle. by rewrite (proj2 (vec_le_alloc s Hwf pid Hpid rel Hlen) Hle).
  - intros (j & Hj & Hgt).
    destruct (vec_le rel _) eqn:Hle; [|done].
    pose proof (proj1 (vec_le_alloc s Hwf pid Hpid rel Hlen) Hle j Hj). lia.
Qed.

Lemma X8_release_accepts_iff_within_allocation_witness :
  release scenario_A 1 [3; 0; 0] true = (0%nat, Ok (false, scenario_A)).
Proof.
  apply (X8_release_accepts_iff_within_allocation scenario_A 1 [3; 0; 0] true).
  - split; simpl; try lia; try reflexivity; repeat constructor.
  - simpl; lia.
  - reflexivity.
  - exists 0%nat. split; [simpl; lia|vm_compute; reflexivity].
Defined.

(** X9: a release that returns true, on every ledger, leaves
    [Available + rel] and [Allocation[pid] - rel] component by component,
    every other Allocation row, Max and the dimensions as they were. *)
Theorem X9_committed_release_effect (s : BankerSystem) (pid : Z)
    (rel : list Z) (verbose : bool) (c : nat) (s' : BankerSystem) :
  release s pid rel verbose = (c, Ok (true, s')) →
  n s' = n s ∧ m s' = m s ∧ max_need s' = max_need s ∧
  length (available s') = (length (available s) `min` length rel)%nat ∧
  (∀ j a r, available s !! j = Some a → rel !! j = Some r →
            available s' !! j = Some (a + r)) ∧
  length (allocation s') = length (allocation s) ∧
  (∀ i, i ≠ Z.to_nat pid → allocation s' !! i = allocation s !! i) ∧
  ∃ row row',
    allocation s !! Z.to_nat pid = Some row ∧
    allocation s' !! Z.to_nat pid = Some row' ∧
    length row' = (length row `min` length rel)%nat ∧
    ∀ j a r, row !! j = Some a → rel !! j = Some r →
             row' !! j = Some (a - r).
Proof.
  intros Hrel.
  apply release_inv in Hrel
    as (_ & Hpid & Hlen & row & Hrow & [(? & _)|(_ & _ & ->)]); [done|].
  simpl. repeat split.
  - apply length_zip_with.
  - intros j a r Ha Hr. unfold vec_add. rewrite lookup_zip_with, Ha, Hr. done.
  - apply length_insert.
  - intros i Hi. by apply list_lookup_insert_ne.
  - exists row, (vec_sub row rel). split; [done|].
    split; [apply list_lookup_insert_eq; by eapply lookup_lt_Some|].
    split; [apply length_zip_with|].
    intros j a r Ha Hr. unfold vec_sub. rewrite lookup_zip_with, Ha, Hr. done.
Qed.

Lemma X9_committed_release_effect_witness :
  ∃ s', release scenario_A 1 [1; 0; 0] true = (0%nat, Ok (true, s')) ∧
        max_need s' = max_need scenario_A.
Proof.
  eexists. split; [vm_compute; reflexivity|].
  refine (proj1 (proj2 (proj2
    (X9_committed_release_effect scenario_A 1 [1; 0; 0] true 0 _ _)))).
  vm_compute. reflexivity.
Defined.

(** X10: [release] never runs the safety check, whatever the ledger, the
    arguments and the outcome, and when it returns false the ledger is the
    one it was given. *)
Theorem X10_release_no_check_no_change (s : BankerSystem) (pid : Z)
    (rel : list Z) (verbose : bool) :
  (release s pid rel verbose).1 = 0%nat ∧
  ∀ c s', release s pid rel verbose = (c, Ok (false, s')) → s' = s.
Proof.
  split.
  - unfold release.
    case_bool_decide; [done|]. case_bool_decide; [done|].
    rewrite bind_traced_lift.
    destruct (getitem (allocation s) pid) as [row| |]; [|done..].
    destruct (negb (vec_le rel row)); [done|].
    rewrite bind_traced_lift.
    rewrite bind_traced_lift.
    destruct (setitem _ _ _) as [al| |]; [|done..].
    rewrite bind_traced_lift.
    by destruct (if verbose then _ else _).
  - intros c s' Hrel.
    by apply release_inv in Hrel
      as (_ & _ & _ & row & _ & [(_ & _ & ->)|(? & _)]).
Qed.

(** X11: release followed by a request of the same vector by the same
    process gives back the ledger: on a safe, well-dimensioned ledger with
    [Available >= 0] and [Allocation[pid] <= Max[pid]], after a release
    within [Allocation[pid]] the request is granted and restores the
    ledger exactly. *)
Theorem X11_release_then_request_restores (s : BankerSystem) (pid : Z)
    (v : list Z) (verbose : bool) (sq : list Z) :
  wf s → 0 ≤ pid < n s → Z.of_nat (length v) = m s →
  (∀ j, (j < Z.to_nat (m s))%nat → v !!! j ≤ alloc_at s pid j) →
  (∀ j, (j < Z.to_nat (m s))%nat → alloc_at s pid j ≤ max_at s pid j) →
  (∀ j, (j < Z.to_nat (m s))%nat → 0 ≤ avail_at s j) →
  safety_check s verbose = (1%nat, Ok (true, sq)) →
  ∃ s1, release s pid v verbose = (0%nat, Ok (true, s1)) ∧
        request s1 pid v verbose = (1%nat, Ok (true, s)).
Proof.
  intros Hwf Hpid Hlen Hle Hmax Hav Hsafe.
  exists (released s pid v). split.
  { rewrite release_eval by done.
    by rewrite (proj2 (vec_le_alloc s Hwf pid Hpid v Hlen) Hle). }
  pose proof (released_wf s Hwf pid Hpid v Hlen) as Hwf'.
  pose proof (released_transfer s Hwf pid Hpid v Hlen) as Htr.
  rewrite request_unfold, request_at_eval by done.
  rewrite (proj2 (vec_le_need _ Hwf' pid Hpid v Hlen)).
  2:{ intros j Hj. rewrite (transfer_need _ _ _ _ Htr) by done.
      rewrite decide_True by done. specialize (Hmax j Hj).
      unfold need_at. lia. }
  rewrite (proj2 (vec_le_avail _ Hwf' v Hlen)).
  2:{ intros j Hj. rewrite (tr_avail _ _ _ _ Htr) by done.
      specialize (Hav j Hj). lia. }
  simpl. rewrite speculated_released by done.
  rewrite safety_check_unfold in Hsafe. injection Hsafe as ->. done.
Qed.

Lemma X11_release_then_request_restores_witness :
  ∃ s1, release scenario_A 1 [1; 0; 0] true = (0%nat, Ok (true, s1)) ∧
        request s1 1 [1; 0; 0] true = (1%nat, Ok (true, scenario_A)).
Proof.
  apply (X11_release_then_request_restores scenario_A 1 [1; 0; 0] true
           [1; 3; 4; 0; 2]).
  - split; simpl; try lia; try reflexivity; repeat constructor.
  - simpl; lia.
  - reflexivity.
  - intros [|[|[|j]]] Hj; [vm_compute; discriminate..|simpl in Hj; lia].
  - intros [|[|[|j]]] Hj; [vm_compute; discriminate..|simpl in Hj; lia].
  - intros [|[|[|j]]] Hj; [vm_compute; discriminate..|simpl in Hj; lia].
  - vm_compute. reflexivity.
Defined.

(** X12: a granted request followed by a release of the same vector by the
    same process gives back the ledger, provided the process held no
    negative amount. *)
Theorem X12_request_then_release_restores (s : BankerSystem) (pid : Z)
    (v : list Z) (verbose : bool) (c : nat) (s1 : BankerSystem) :
  wf s →
  (∀ j, (j < Z.to_nat (m s))%nat → 0 ≤ alloc_at s pid j) →
  request s pid v verbose = (c, Ok (true, s1)) →
  release s1 pid v verbose = (0%nat, Ok (true, s)).
Proof.
  intros Hwf Hnn Hreq.
  apply request_true_speculated in Hreq
    as (_ & Hpid & Hlen & -> & _); [|done].
  pose proof (speculated_wf s Hwf pid Hpid v Hlen) as Hwf'.
  pose proof (speculated_transfer s Hwf pid Hpid v Hlen) as Htr.
  rewrite release_eval by done.
  rewrite (proj2 (vec_le_alloc _ Hwf' pid Hpid v Hlen)).
  2:{ intros j Hj. rewrite (tr_alloc _ _ _ _ Htr) by done.
      rewrite decide_True by done. specialize (Hnn j Hj). lia. }
  by rewrite released_speculated.
Qed.

Lemma X12_request_then_release_restores_witness :
  ∃ s1, request scenario_A 1 [1; 0; 2] true = (1%nat, Ok (true, s1)) ∧
        release s1 1 [1; 0; 2] true = (0%nat, Ok (true, scenario_A)).
Proof.
  eexists. split; [vm_compute; reflexivity|].
  apply (X12_request_then_release_restores scenario_A 1 [1; 0; 2] true 1).
  - split; simpl; try lia; try reflexivity; repeat constructor.
  - intros [|[|[|j]]] Hj; [vm_compute; discriminate..|simpl in Hj; lia].
  - vm_compute. reflexivity.
Defined.

(** X13: Need after a committed transition on a well-dimensioned ledger: a
    granted request lowers [Need[pid]] by the vector, a committed release
    raises it by the vector, and the Need of every other process stays. *)
Theorem X13_need_after_commit (s : BankerSystem) (pid : Z) (v : list Z)
    (verbose : bool) (c : nat) (s' : BankerSystem) (i : Z) (j : nat) :
  wf s → 0 ≤ i < n s → (j < Z.to_nat (m s))%nat →
  (request s pid v verbose = (c, Ok (true, s')) →
   need_at s' i j = need_at s i j - (if decide (i = pid) then v !!! j else 0)) ∧
  (release s pid v verbose = (c, Ok (true, s')) →
   need_at s' i j = need_at s i j + (if decide (i = pid) then v !!! j else 0)).
Proof.
  intros Hwf Hi Hj. split.
  - intros Hreq.
    apply request_true_speculated in Hreq
      as (_ & Hpid & Hlen & -> & _); [|done].
    by rewrite (transfer_need _ _ _ _ (speculated_transfer s Hwf pid Hpid v Hlen)).
  - intros Hrel.
    apply release_true_released in Hrel
      as (_ & Hpid & Hlen & -> & _); [|done].
    rewrite (transfer_need _ _ _ _ (released_transfer s Hwf pid Hpid v Hlen))
      by done.
    case_decide; lia.
Qed.

Lemma X13_need_after_commit_witness :
  ∃ s', request scenario_A 1 [1; 0; 2] true = (1%nat, Ok (true, s')) ∧
        need_at s' 1 2 = need_at scenario_A 1 2 - 2.
Proof.
  eexists. split; [vm_compute; reflexivity|].
  refine (proj1 (X13_need_after_commit scenario_A 1 [1; 0; 2] true 1 _ 1 2
                   _ _ _) _).
  - split; simpl; try lia; try reflexivity; repeat constructor.
  - simpl; lia.
  - simpl; lia.
  - vm_compute. reflexivity.
Defined.

(** X14: the data-model invariants survive every committed transition made
    with a vector without negative entries: if the ledger is
    well-dimensioned with [0 <= Allocation <= Max] (I1) and
    [Available >= 0] (I2), so is the ledger after a granted request or a
    committed release. *)
Theorem X14_commit_keeps_invariants (s : BankerSystem) (pid : Z) (v : list Z)
    (verbose : bool) (c : nat) (s' : BankerSystem) :
  wf s → I1 s → I2 s → Forall (Z.le 0) v →
  request s pid v verbose = (c, Ok (true, s')) ∨
  release s pid v verbose = (c, Ok (true, s')) →
  wf s' ∧ I1 s' ∧ I2 s'.
Proof.
  intros Hwf HI1 HI2 Hv Hcall.
  assert (∀ j, (j < Z.to_nat (m s))%nat → 0 ≤ avail_at s j) as Hav.
  { intros j Hj. apply (Forall_lookup_total_1 _ _ j HI2).
    rewrite (wf_available _ Hwf). lia. }
  destruct Hcall as [Hreq|Hrel].
  - apply request_true_speculated in Hreq
      as (_ & Hpid & Hlen & -> & Hneed & Havail & _); [|done].
    pose proof (speculated_wf s Hwf pid Hpid v Hlen) as Hwf'.
    pose proof (speculated_transfer s Hwf pid Hpid v Hlen) as Htr.
    assert (∀ j, (j < Z.to_nat (m s))%nat → 0 ≤ v !!! j) as Hv'.
    { intros j Hj. apply (Forall_lookup_total_1 _ _ j Hv). lia. }
    split; [done|]. split.
    + intros i j Hi Hj. simpl in Hi, Hj.
      rewrite (tr_alloc _ _ _ _ Htr) by done.
      unfold max_at. rewrite (tr_max _ _ _ _ Htr). fold (max_at s i j).
      specialize (HI1 i j Hi Hj). case_decide as Heq; [|lia]. subst i.
      pose proof (proj1 (vec_le_need s Hwf pid Hpid v Hlen) Hneed j Hj) as Hn.
      unfold need_at in Hn. specialize (Hv' j Hj). lia.
    + apply (Forall_lookup_total_2 (Z.le 0)). intros j Hj.
      rewrite (wf_available _ Hwf') in Hj. simpl in Hj.
      change (0 ≤ avail_at (speculated s pid v) j).
      rewrite (tr_avail _ _ _ _ Htr) by done.
      pose proof (proj1 (vec_le_avail s Hwf v Hlen) Havail j Hj). lia.
  - apply release_true_released in Hrel
      as (_ & Hpid & Hlen & -> & Hle); [|done].
    pose proof (released_wf s Hwf pid Hpid v Hlen) as Hwf'.
    pose proof (released_transfer s Hwf pid Hpid v Hlen) as Htr.
    assert (∀ j, (j < Z.to_nat (m s))%nat → 0 ≤ v !!! j) as Hv'.
    { intros j Hj. apply (Forall_lookup_total_1 _ _ j Hv). lia. }
    split; [done|]. split.
    + intros i j Hi Hj. simpl in Hi, Hj.
      rewrite (tr_alloc _ _ _ _ Htr) by done.
      unfold max_at. rewrite (tr_max _ _ _ _ Htr). fold (max_at s i j).
      specialize (HI1 i j Hi Hj). case_decide as Heq; [|lia]. subst i.
      pose proof (proj1 (vec_le_alloc s Hwf pid Hpid v Hlen) Hle j Hj).
      specialize (Hv' j Hj). lia.
    + apply (Forall_lookup_total_2 (Z.le 0)). intros j Hj.
      rewrite (wf_available _ Hwf') in Hj. simpl in Hj.
      change (0 ≤ avail_at (released s pid v) j).
      rewrite (tr_avail _ _ _ _ Htr) by done.
      specialize (Hav j Hj). specialize (Hv' j Hj). lia.
Qed.

Lemma X14_commit_keeps_invariants_witness :
  ∃ s', request scenario_A 1 [1; 0; 2] true = (1%nat, Ok (true, s')) ∧
        wf s' ∧ I1 s' ∧ I2 s'.
Proof.
  eexists. split; [vm_compute; reflexivity|].
  apply (X14_commit_keeps_invariants scenario_A 1 [1; 0; 2] true 1).
  - split; simpl; try lia; try reflexivity; repeat constructor.
  - intros i j Hi Hj. simpl in Hi, Hj.
    assert (i = 0 ∨ i = 1 ∨ i = 2 ∨ i = 3 ∨ i = 4) as Hcase by lia.
    destruct j as [|[|[|j]]]; [..|lia];
      destruct Hcase as [->|[->|[->|[->| ->]]]]; vm_compute;
      split; discriminate.
  - repeat constructor; lia.
  - repeat constructor; lia.
  - left. vm_compute. reflexivity.
Defined.

(** X15: along any run of returning calls made with vectors without
    negative entries, starting from a well-dimensioned safe ledger with
    non-negative allocations, the ledger stays well-dimensioned and safe,
    allocations stay non-negative, Max and the dimensions never change and
    the total of every resource class is conserved. *)
Theorem X15_runs_stay_safe (s s' : BankerSystem) :
  wf s → alloc_nonneg s → safe s → rtc step s s' →
  wf s' ∧ alloc_nonneg s' ∧ safe s' ∧
  n s' = n s ∧ m s' = m s ∧ max_need s' = max_need s ∧
  ∀ j, (j < Z.to_nat (m s))%nat → total s' j = total s j.
Proof.
  intros Hwf Hnn Hsafe Hrun. induction Hrun as [s|s s1 s2 Hstep Hrun IH].
  { done. }
  enough (wf s1 ∧ alloc_nonneg s1 ∧ safe s1 ∧ n s1 = n s ∧ m s1 = m s ∧
          max_need s1 = max_need s ∧
          ∀ j, (j < Z.to_nat (m s))%nat → total s1 j = total s j)
    as (Hwf1 & Hnn1 & Hsafe1 & Hn & Hm & Hmax & Htot).
  { destruct (IH Hwf1 Hnn1 Hsafe1) as (? & ? & ? & Hn2 & Hm2 & Hmax2 & Htot2).
    split_and!; try done; try congruence.
    intros j Hj. rewrite Htot2 by (by rewrite Hm). by apply Htot. }
  destruct Hstep as (cl & verbose & k & b & Hv & Hcall).
  destruct b.
  2:{ assert (s1 = s) as ->; [|done].
      destruct cl as [pid v|pid v]; simpl in Hcall.
      - by eapply request_false_same.
      - by apply release_inv in Hcall
          as (_ & _ & _ & row & _ & [(_ & _ & ->)|(? & _)]). }
  destruct Hsafe as [sq Hsafe]. rewrite safety_check_unfold in Hsafe.
  injection Hsafe as Hsafe.
  destruct cl as [pid v|pid v]; simpl in Hcall, Hv.
  - apply request_true_speculated in Hcall
      as (_ & Hpid & Hlen & -> & _ & _ & sq' & Hrun'); [|done].
    split; [by apply speculated_wf|].
    split; [by apply speculated_nonneg|].
    split; [exists sq'; by rewrite safety_check_unfold, <- Hrun'|].
    split_and!; try done. intros j Hj.
    by eapply transfer_total; [apply speculated_transfer|..].
  - apply release_true_released in Hcall
      as (_ & Hpid & Hlen & -> & Hle); [|done].
    destruct (released_safe s Hwf pid v sq Hpid Hlen Hnn) as [Hnn' [sq' Hrun']];
      [|done|].
    { intros j Hj. split.
      - apply (Forall_lookup_total_1 _ _ j Hv). lia.
      - by apply (vec_le_alloc s Hwf pid Hpid v Hlen). }
    split; [by apply released_wf|]. split; [done|].
    split; [exists sq'; by rewrite safety_check_unfold, <- Hrun'|].
    split_and!; try done. intros j Hj.
    by eapply transfer_total; [apply released_transfer|..].
Qed.

Lemma X15_runs_stay_safe_witness :
  ∃ s', wf s' ∧ alloc_nonneg s' ∧ safe s' ∧
    n s' = n scenario_A ∧ m s' = m scenario_A ∧
    max_need s' = max_need scenario_A ∧
    ∀ j, (j < Z.to_nat (m scenario_A))%nat → total s' j = total scenario_A j.
Proof.
  exists (released (speculated scenario_A 1 [1; 0; 2]) 3 [1; 1; 0]).
  apply (X15_runs_stay_safe scenario_A).
  - split; simpl; try lia; try reflexivity; repeat constructor.
  - repeat constructor; lia.
  - eexists. vm_compute. reflexivity.
  - eapply rtc_l; [|eapply rtc_l; [|apply rtc_refl]].
    + exists (Req 1 [1; 0; 2]), true, 1%nat, true.
      split; [repeat constructor; lia|vm_compute; reflexivity].
    + exists (Rel 3 [1; 1; 0]), true, 0%nat, true.
      split; [repeat constructor; lia|vm_compute; reflexivity].
Defined.

(** X16: the [while] loop of the safety check ends within [n + 1] sweeps
    on every ledger, well-dimensioned or not: the bounded unrolling never
    runs out, and allowing more sweeps changes nothing. *)
Theorem X16_safety_check_terminates (s : BankerSystem) (k : nat) :
  safety_run (S (Z.to_nat (n s))) s ≠ OutOfFuel ∧
  safety_run (S (Z.to_nat (n s)) + k) s = safety_run (S (Z.to_nat (n s))) s.
Proof. split; [apply safety_run_in_fuel|apply safety_run_fuel]. Qed.

(** ** [need()] on arbitrary ledgers *)

Lemma comprehension_Ok {A} (f : Z → result A) l (xs : list A) :
  comprehension f l = Ok xs ↔ Forall2 (λ i x, f i = Ok x) l xs.
Proof.
  revert xs. induction l as [|i l IH]; intros xs; simpl.
  { split; [intros [= <-]; constructor|by inversion 1]. }
  destruct (f i) as [x| |] eqn:Hx; simpl.
  - destruct (comprehension f l) as [ys| |] eqn:Hys; simpl.
    + split.
      * intros [= <-]. constructor; [done|]. by apply IH.
      * inversion 1 as [|? y ? ys' Hy Hall]; subst.
        apply IH in Hall. congruence.
    + split; [done|]. inversion 1 as [|? y ? ys' Hy Hall]; subst.
      by apply IH in Hall.
    + split; [done|]. inversion 1 as [|? y ? ys' Hy Hall]; subst.
      by apply IH in Hall.
  - split; [done|]. inversion 1; congruence.
  - split; [done|]. inversion 1; congruence.
Qed.

Lemma comprehension_fmap {A} (f : Z → result A) (g : Z → A) l :
  (∀ i, i ∈ l → f i = Ok (g i)) → comprehension f l = Ok (g <$> l).
Proof.
  induction l as [|i l IH]; intros Hf; [done|]. simpl.
  rewrite Hf by (apply elem_of_cons; auto). simpl.
  rewrite IH by (intros; apply Hf, elem_of_cons; auto). done.
Qed.

Lemma comprehension_Raise {A} (f : Z → result A) l e :
  comprehension f l = Raise e → ∃ i, i ∈ l ∧ f i = Raise e.
Proof.
  induction l as [|i l IH]; [done|]. simpl.
  destruct (f i) as [x| |] eqn:Hx; simpl; [|intros [= <-]|done].
  - destruct (comprehension f l) as [ys| |]; simpl; [done| |done].
    intros [= <-]. destruct IH as (k & Hk & Hfk); [done|].
    exists k. split; [apply elem_of_cons; auto|done].
  - exists i. split; [apply elem_of_cons; auto|done].
Qed.

Lemma getitem_Raise {A} (l : list A) i e : getitem l i = Raise e → e = IndexError.
Proof. unfold getitem. repeat case_match; congruence. Qed.

(** Every entry [need()] computed was read from both matrices. *)
Lemma need_entry s M i j :
  need s = Ok M → 0 ≤ i < n s → 0 ≤ j < m s →
  ∃ mrow arow x y row,
    max_need s !! Z.to_nat i = Some mrow ∧ mrow !! Z.to_nat j = Some x ∧
    allocation s !! Z.to_nat i = Some arow ∧ arow !! Z.to_nat j = Some y ∧
    M !! Z.to_nat i = Some row ∧ row !! Z.to_nat j = Some (x - y).
Proof.
  intros Hneed Hi Hj. unfold need in Hneed.
  apply comprehension_Ok in Hneed.
  assert (range (n s) !! Z.to_nat i = Some i) as Hri.
  { unfold range. rewrite lookup_seqZ_lt by lia. f_equal. lia. }
  destruct (Forall2_lookup_l _ _ _ _ _ Hneed Hri) as (row & Hrow & Hinner).
  apply comprehension_Ok in Hinner.
  assert (range (m s) !! Z.to_nat j = Some j) as Hrj.
  { unfold range. rewrite lookup_seqZ_lt by lia. f_equal. lia. }
  destruct (Forall2_lookup_l _ _ _ _ _ Hinner Hrj) as (e & He & Hcell).
  apply bind_Ok in Hcell as (mrow & Hmrow & Hcell).
  apply bind_Ok in Hcell as (x & Hx & Hcell).
  apply bind_Ok in Hcell as (arow & Harow & Hcell).
  apply bind_Ok in Hcell as (y & Hy & [= <-]).
  apply getitem_Ok_inv in Hmrow, Hx, Harow, Hy; try lia.
  by exists mrow, arow, x, y, row.
Qed.

(** X17: whenever [need()] returns, on any ledger, the matrix has [n] rows
    of [m] entries and entry [(i, j)] is [Max[i][j] - Allocation[i][j]]. *)
Theorem X17_need_shape_and_entries (s : BankerSystem) (M : list (list Z)) :
  need s = Ok M →
  length M = Z.to_nat (n s) ∧
  ∀ i row, 0 ≤ i < n s → M !! Z.to_nat i = Some row →
    length row = Z.to_nat (m s) ∧
    ∀ j, (j < Z.to_nat (m s))%nat →
      row !! j = Some (max_at s i j - alloc_at s i j).
Proof.
  intros Hneed. split.
  { unfold need in Hneed. apply comprehension_Ok, Forall2_length in Hneed.
    unfold range in Hneed. by rewrite length_seqZ in Hneed. }
  intros i row Hi Hrow. split.
  - unfold need in Hneed. apply comprehension_Ok in Hneed.
    assert (range (n s) !! Z.to_nat i = Some i) as Hri.
    { unfold range. rewrite lookup_seqZ_lt by lia. f_equal. lia. }
    pose proof (Forall2_lookup_lr _ _ _ _ _ _ Hneed Hri Hrow) as Hinner.
    apply comprehension_Ok, Forall2_length in Hinner.
    unfold range in Hinner. by rewrite length_seqZ in Hinner.
  - intros j Hj.
    destruct (need_entry s M i (Z.of_nat j) Hneed Hi ltac:(lia))
      as (mrow & arow & x & y & row' & Hm & Hx & Ha & Hy & Hrow' & Hcell).
    rewrite Nat2Z.id in Hx, Hy, Hcell.
    assert (row' = row) as -> by congruence.
    unfold max_at, alloc_at.
    rewrite (list_lookup_total_correct _ _ _ Hm),
            (list_lookup_total_correct _ _ _ Ha),
            (list_lookup_total_correct _ _ _ Hx),
            (list_lookup_total_correct _ _ _ Hy). done.
Qed.

Lemma X17_need_shape_and_entries_witness :
  length [[7; 4; 3]; [1; 2; 2]; [6; 0; 0]; [0; 1; 1]; [4; 3; 1]]
  = Z.to_nat (n scenario_A).
Proof.
  refine (proj1 (X17_need_shape_and_entries scenario_A
    [[7; 4; 3]; [1; 2; 2]; [6; 0; 0]; [0; 1; 1]; [4; 3; 1]] _)).
  vm_compute. reflexivity.
Defined.

(** X18: [need()] returns exactly when there is nothing to compute
    ([n <= 0] or [m <= 0]) or both matrices have at least [n] rows whose
    first [n] have at least [m] entries; in every other case it raises
    [IndexError]. *)
Theorem X18_need_returns_iff_dimensions (s : BankerSystem) :
  let enough :=
    n s ≤ 0 ∨ m s ≤ 0 ∨
    (n s ≤ Z.of_nat (length (max_need s)) ∧
     n s ≤ Z.of_nat (length (allocation s)) ∧
     ∀ (i : nat) row, Z.of_nat i < n s →
       max_need s !! i = Some row ∨ allocation s !! i = Some row →
       m s ≤ Z.of_nat (length row)) in
  ((∃ M, need s = Ok M) ↔ enough) ∧
  (¬ enough → need s = Raise IndexError).
Proof.
  intros enough.
  assert ((∃ M, need s = Ok M) → enough) as Hfwd.
  { intros [M Hneed]. unfold enough.
    destruct (decide (n s ≤ 0)) as [|Hn]; [by left|].
    destruct (decide (m s ≤ 0)) as [|Hm]; [by right; left|].
    right. right. split_and!.
    - destruct (need_entry s M (n s - 1) 0 Hneed) as
        (mrow & _ & _ & _ & _ & Hl & _); [lia..|].
      apply lookup_lt_Some in Hl. lia.
    - destruct (need_entry s M (n s - 1) 0 Hneed) as
        (_ & arow & _ & _ & _ & _ & _ & Hl & _); [lia..|].
      apply lookup_lt_Some in Hl. lia.
    - intros i row Hi Hrow.
      destruct (need_entry s M (Z.of_nat i) (m s - 1) Hneed) as
        (mrow & arow & x & y & _ & Hm1 & Hx & Ha & Hy & _); [lia..|].
      rewrite Nat2Z.id in Hm1, Ha.
      apply lookup_lt_Some in Hx, Hy.
      destruct Hrow as [Hrow|Hrow].
      + assert (row = mrow) as -> by congruence. lia.
      + assert (row = arow) as -> by congruence. lia. }
  assert (enough → ∃ M, need s = Ok M) as Hbwd.
  { intros Hok. unfold need.
    destruct (decide (n s ≤ 0)) as [Hn|Hn].
    { exists []. unfold range. by rewrite (seqZ_nil 0 (n s)). }
    destruct (decide (m s ≤ 0)) as [Hm|Hm].
    { eexists. apply (comprehension_fmap _ (λ _, [])). intros i _.
      unfold range. by rewrite (seqZ_nil 0 (m s)). }
    destruct Hok as [?|[?|(Hmax & Hal & Hrows)]]; [lia..|].
    eexists.
    apply (comprehension_fmap _
      (λ i, (λ j, max_at s i (Z.to_nat j) - alloc_at s i (Z.to_nat j))
              <$> range (m s))).
    intros i Hi%elem_of_range.
    apply comprehension_fmap. intros j Hj%elem_of_range.
    rewrite (getitem_total (max_need s)) by lia. simpl.
    assert (m s ≤ Z.of_nat (length (max_need s !!! Z.to_nat i))) as Hl1.
    { apply (Hrows (Z.to_nat i)); [lia|]. left.
      apply list_lookup_lookup_total_lt. lia. }
    assert (m s ≤ Z.of_nat (length (allocation s !!! Z.to_nat i))) as Hl2.
    { apply (Hrows (Z.to_nat i)); [lia|]. right.
      apply list_lookup_lookup_total_lt. lia. }
    rewrite (getitem_total (max_need s !!! Z.to_nat i)) by lia. simpl.
    rewrite (getitem_total (allocation s)) by lia. simpl.
    rewrite (getitem_total (allocation s !!! Z.to_nat i)) by lia. simpl.
    done. }
  split; [by split|].
  intros Hno. destruct (need s) as [M|e|] eqn:Hneed.
  - destruct Hno. apply Hfwd. by exists M.
  - f_equal. unfold need in Hneed.
    apply comprehension_Raise in Hneed as (i & _ & Hinner).
    apply comprehension_Raise in Hinner as (j & _ & Hcell).
    destruct (getitem (max_need s) i) as [mrow| |] eqn:H1; simpl in Hcell;
      [|injection Hcell as <-; by eapply getitem_Raise|done].
    destruct (getitem mrow j) as [x| |] eqn:H2; simpl in Hcell;
      [|injection Hcell as <-; by eapply getitem_Raise|done].
    destruct (getitem (allocation s) i) as [arow| |] eqn:H3; simpl in Hcell;
      [|injection Hcell as <-; by eapply getitem_Raise|done].
    destruct (getitem arow j) as [y| |] eqn:H4; simpl in Hcell;
      [done|injection Hcell as <-; by eapply getitem_Raise|done].
  - by destruct (need_in_fuel s).
Qed.

(** ** The safety check on arbitrary ledgers *)

Lemma visit_flags s nd n0 i st st' :
  0 ≤ i < n0 → flags_match n0 st → visit s nd i st = Ok st' →
  flags_match n0 st'.
Proof.
  intros Hi (Hlen & Hnd & Hmem). unfold visit, getitem at 1, setitem.
  rewrite norm_index_nonneg by lia.
  rewrite bool_decide_eq_true_2 by lia.
  destruct (finish st !! Z.to_nat i) as [[]|] eqn:Hfin; simpl;
    [by intros [= <-]| |done].
  destruct (getitem nd i) as [row| |]; simpl; [|done..].
  destruct (vec_le row (work st)); [|by intros [= <-]].
  destruct (getitem (allocation s) i) as [arow| |]; simpl; [|done..].
  intros [= <-]. split_and!; simpl.
  - by rewrite length_insert.
  - apply NoDup_app. split; [done|]. split; [|apply NoDup_singleton].
    intros k Hk Hk'. apply list_elem_of_singleton in Hk'. subst k.
    apply Hmem in Hk as [_ Hk]. congruence.
  - intros k. rewrite elem_of_app, list_elem_of_singleton, Hmem.
    destruct (decide (k = i)) as [->|Hne].
    + rewrite list_lookup_insert_eq by lia. intuition.
    + split.
      * intros [[Hk Hf]|?]; [|done]. split; [done|].
        destruct (decide (Z.to_nat i = Z.to_nat k)) as [Heq|Hneq]; [lia|].
        by rewrite list_lookup_insert_ne.
      * intros [Hk Hf]. left. split; [done|].
        destruct (decide (Z.to_nat i = Z.to_nat k)) as [Heq|Hneq]; [lia|].
        by rewrite list_lookup_insert_ne in Hf.
Qed.

Lemma for_each_flags s nd n0 l st st' :
  (∀ i, i ∈ l → 0 ≤ i < n0) → flags_match n0 st →
  for_each (visit s nd) l st = Ok st' → flags_match n0 st'.
Proof.
  revert st. induction l as [|i l IH]; intros st Hl Hst; simpl.
  { by intros [= <-]. }
  destruct (visit s nd i st) as [st1| |] eqn:Hv; simpl; [|done..].
  apply IH; [intros; apply Hl, elem_of_cons; auto|].
  eapply visit_flags; [|done..]. apply Hl, elem_of_cons. auto.
Qed.

Lemma while_changed_flags fuel s nd st st' :
  flags_match (n s) st → while_changed fuel s nd st = Ok st' →
  flags_match (n s) st'.
Proof.
  revert st. induction fuel as [|fuel IH]; intros st Hst; simpl.
  { destruct (changed st); [done|]. by intros [= <-]. }
  destruct (changed st); [|by intros [= <-]].
  destruct (sweep s nd st) as [st1| |] eqn:Hsw; simpl; [|done..].
  apply IH. unfold sweep in Hsw.
  eapply for_each_flags; [| |exact Hsw];
    [intros i; apply elem_of_range|exact Hst].
Qed.

(** X19: whenever the safety check returns, on any ledger whatsoever, it
    has counted one call, its sequence has no duplicates and holds indices
    of [0, n) only, and its verdict is true exactly when the sequence has
    [n] entries (none, when [n] is negative). *)
Theorem X19_returned_sequence_shape_any_ledger (s : BankerSystem)
    (verbose safe : bool) (c : nat) (sq : list Z) :
  safety_check s verbose = (c, Ok (safe, sq)) →
  c = 1%nat ∧ NoDup sq ∧ (∀ i, i ∈ sq → 0 ≤ i < n s) ∧
  (safe = true ↔ length sq = Z.to_nat (n s)).
Proof.
  rewrite safety_check_unfold. intros [= <- Hrun]. split; [done|].
  unfold safety_run in Hrun.
  destruct (need s) as [nd| |]; simpl in Hrun; [|done..].
  destruct (sweep s nd _) as [st1| |] eqn:Hsw; simpl in Hrun; [|done..].
  destruct (while_changed _ s nd st1) as [st| |] eqn:Hw; simpl in Hrun;
    [|done..].
  injection Hrun as <- <-.
  assert (flags_match (n s) st) as (Hlen & Hnd & Hmem).
  { eapply while_changed_flags; [|exact Hw].
    unfold sweep in Hsw. eapply for_each_flags; [| |exact Hsw].
    - intros i. apply elem_of_range.
    - split_and!; simpl.
      + apply length_replicate.
      + constructor.
      + intros i. split; [by intros ?%not_elem_of_nil|].
        intros [Hi Hf]. apply lookup_replicate in Hf as [? _]. done. }
  split; [done|]. split; [intros i Hi; by apply Hmem|].
  assert (sq_in : seq st ⊆+ range (n s)).
  { apply NoDup_submseteq; [done|]. intros i Hi.
    apply elem_of_range. by apply Hmem. }
  rewrite forallb_id_lookup, Hlen. split.
  - intros Hall. apply Nat.le_antisymm.
    + apply submseteq_length in sq_in. unfold range in sq_in.
      by rewrite length_seqZ in sq_in.
    + assert (range (n s) ⊆+ seq st) as Hsub.
      { apply NoDup_submseteq; [apply NoDup_seqZ|].
        intros i Hi%elem_of_range. apply Hmem. split; [done|].
        rewrite <- (Hall (Z.to_nat i)) by lia.
        apply list_lookup_lookup_total_lt. lia. }
      apply submseteq_length in Hsub. unfold range in Hsub.
      by rewrite length_seqZ in Hsub.
  - intros Hfull i Hi.
    assert (seq st ≡ₚ range (n s)) as Hperm.
    { apply submseteq_length_Permutation; [done|].
      unfold range. rewrite length_seqZ. lia. }
    assert (Z.of_nat i ∈ seq st) as Hin.
    { rewrite Hperm. apply elem_of_range. lia. }
    apply Hmem in Hin as [_ Hf]. rewrite Nat2Z.id in Hf.
    by apply list_lookup_total_correct.
Qed.

Lemma X19_returned_sequence_shape_any_ledger_witness :
  1%nat = 1%nat ∧ NoDup [1; 3; 4; 0; 2] ∧
  (∀ i, i ∈ [1; 3; 4; 0; 2] → 0 ≤ i < n scenario_A) ∧
  (true = true ↔ length [1; 3; 4; 0; 2] = Z.to_nat (n scenario_A)).
Proof.
  apply (X19_returned_sequence_shape_any_ledger scenario_A true true 1
           [1; 3; 4; 0; 2]).
  vm_compute. reflexivity.
Defined.

(** ** Vector helpers *)

(** X20: [vec_le] looks at the positions the two lists share and at no
    other: it is true exactly when [a[j] <= b[j]] wherever both are
    defined, so entries beyond the shorter list are ignored and an empty
    list is below (and above) every list. *)
Theorem X20_vec_le_common_prefix (a b : list Z) :
  (vec_le a b = true ↔
   ∀ j x y, a !! j = Some x → b !! j = Some y → x ≤ y) ∧
  vec_le [] b = true ∧ vec_le a [] = true.
Proof.
  split; [apply vec_le_lookup|]. split; [done|].
  apply vec_le_lookup. intros j x y _ Hy. by rewrite lookup_nil in Hy.
Qed.

(** X21: [vec_add] and [vec_sub] cut to the shorter argument, work
    position by position, and undo each other when the second argument is
    at least as long as the first. *)
Theorem X21_vec_add_sub_inverse (a b : list Z) :
  length (vec_add a b) = (length a `min` length b)%nat ∧
  length (vec_sub a b) = (length a `min` length b)%nat ∧
  ((length a ≤ length b)%nat →
   vec_sub (vec_add a b) b = a ∧ vec_add (vec_sub a b) b = a).
Proof.
  split; [apply length_zip_with|]. split; [apply length_zip_with|].
  intros Hlen. split; [by apply vec_sub_add|by apply vec_add_sub].
Qed.

(** ** The console layer *)

Lemma check_initial_steps s l :
  wf s → (∀ i, i ∈ l → 0 ≤ i < n s) →
  for_each (λ i _,
      arow <- getitem (allocation s) i;;
      mrow <- getitem (max_need s) i;;
      if negb (vec_le arow mrow) then Raise ValueError else Ok ())
    l () =
  if forallb (λ i, vec_le (allocation s !!! Z.to_nat i)
                          (max_need s !!! Z.to_nat i)) l
  then Ok () else Raise ValueError.
Proof.
  intros Hwf. induction l as [|i l IH]; intros Hl; [done|].
  assert (0 ≤ i < n s) as Hi by (apply Hl, elem_of_cons; auto).
  simpl.
  rewrite (getitem_total (allocation s))
    by (rewrite (wf_alloc_rows _ Hwf); lia).
  simpl.
  rewrite (getitem_total (max_need s)) by (rewrite (wf_max_rows _ Hwf); lia).
  simpl. destruct (vec_le _ _); simpl; [|done].
  apply IH. intros. apply Hl, elem_of_cons. auto.
Qed.

(** X22: on ledger data of the right dimensions the start-up check of
    [main] passes exactly when [Allocation[i][j] <= Max[i][j]] for every
    process and class, and raises [ValueError] otherwise. *)
Theorem X22_startup_check_is_allocation_below_max (s : BankerSystem) :
  wf s →
  (check_initial (n s) (allocation s) (max_need s) = Ok () ↔
   ∀ i j, 0 ≤ i < n s → (j < Z.to_nat (m s))%nat →
     alloc_at s i j ≤ max_at s i j) ∧
  (check_initial (n s) (allocation s) (max_need s) = Ok () ∨
   check_initial (n s) (allocation s) (max_need s) = Raise ValueError).
Proof.
  intros Hwf. unfold check_initial.
  rewrite check_initial_steps by (done || intros i; apply elem_of_range).
  split; [|by destruct (forallb _ _); auto].
  destruct (forallb _ _) eqn:Hall.
  - split; [intros _|done]. intros i j Hi Hj.
    rewrite forallb_forall in Hall.
    specialize (Hall i ltac:(by apply list_elem_of_In, elem_of_range)).
    exact (proj1 (vec_le_total _ _ (Z.to_nat (m s))
                    (alloc_row_length s Hwf i Hi) (max_row_length s Hwf i Hi))
                 Hall j Hj).
  - split; [done|]. intros Hle. exfalso.
    assert (forallb (λ i, vec_le (allocation s !!! Z.to_nat i)
                            (max_need s !!! Z.to_nat i)) (range (n s))
            = true) as Htrue; [|congruence].
    apply forallb_forall. intros i Hi%list_elem_of_In%elem_of_range.
    apply (vec_le_total _ _ (Z.to_nat (m s)));
      [by apply alloc_row_length|by apply max_row_length|].
    intros j Hj. by apply Hle.
Qed.

Lemma X22_startup_check_is_allocation_below_max_witness :
  check_initial (n scenario_A) (allocation scenario_A) (max_need scenario_A)
    = Ok () ∨
  check_initial (n scenario_A) (allocation scenario_A) (max_need scenario_A)
    = Raise ValueError.
Proof.
  apply (X22_startup_check_is_allocation_below_max scenario_A).
  split; simpl; try lia; try reflexivity; repeat constructor.
Defined.

Lemma collect_length {A B} (f : A → result B) l v :
  collect f l = Ok v → length v = length l.
Proof.
  revert v. induction l as [|x l IH]; intros v; simpl; [by intros [= <-]|].
  destruct (f x); simpl; [|done..].
  destruct (collect f l) as [ys| |]; simpl; [|done..].
  intros [= <-]. simpl. f_equal. by apply IH.
Qed.

Lemma existsb_negative v :
  existsb (λ x, x <? 0) v = false → Forall (Z.le 0) v.
Proof.
  induction v as [|x v IH]; simpl; [constructor|].
  intros [Hx Hv]%orb_false_iff. constructor; [lia|by apply IH].
Qed.

Lemma read_call_Call int_of mk m0 parts c :
  read_call int_of mk m0 parts = Ok (Call c) →
  ∃ pid v, c = mk pid v ∧ Z.of_nat (length v) = m0 ∧ Forall (Z.le 0) v.
Proof.
  unfold read_call. case_bool_decide as Hlen; [done|].
  destruct (getitem parts 1) as [tok| |] eqn:Htok; simpl; [|done..].
  apply getitem_Ok_inv, lookup_lt_Some in Htok; [|lia].
  destruct (int_of tok) as [pid| |]; simpl; [|done..].
  destruct (collect int_of (drop 2 parts)) as [v| |] eqn:Hv; simpl; [|done..].
  destruct (existsb _ v) eqn:Hneg; [done|].
  intros [= <-]. exists pid, v. split; [done|].
  split; [|by apply existsb_negative].
  apply collect_length in Hv. rewrite length_drop in Hv.
  change (Z.to_nat 1) with 1%nat in Htok. lia.
Qed.

(** X23: whatever the tokens of a command line, the call the command
    loop decides on, if any, carries a vector of exactly [m] entries none
    of which is negative. *)
Theorem X23_command_loop_filters_vectors (int_of : string → result Z)
    (lower : string → string) (m0 : Z) (parts : list string) (c : call) :
  dispatch int_of lower m0 parts = Ok (Call c) →
  Z.of_nat (length (call_vector c)) = m0 ∧ Forall (Z.le 0) (call_vector c).
Proof.
  unfold dispatch.
  destruct (getitem parts 0) as [tok| |]; simpl; [|done..].
  repeat (case_bool_decide; [done|]).
  case_bool_decide.
  { intros (pid & v & -> & Hlen & Hv)%read_call_Call. done. }
  case_bool_decide; [|done].
  intros (pid & v & -> & Hlen & Hv)%read_call_Call. done.
Qed.

Lemma X23_command_loop_filters_vectors_witness :
  Z.of_nat (length (call_vector (Req 1 [1; 0; 2]))) = 3 ∧
  Forall (Z.le 0) (call_vector (Req 1 [1; 0; 2])).
Proof.
  apply (X23_command_loop_filters_vectors
           (λ t, if bool_decide (t = "1") then Ok 1
                 else if bool_decide (t = "2") then Ok 2 else Ok 0)
           (λ t, t) 3 ["req"; "1"; "1"; "0"; "2"]).
  vm_compute. reflexivity.
Defined.

Lemma string_length_app (a b : string) :
  String.length (a +:+ b) = (String.length a + String.length b)%nat.
Proof. induction a as [|c a IH]; simpl; [done|]. by rewrite IH. Qed.

Lemma spaces_length k : String.length (spaces k) = k.
Proof.
  induction k as [|k IH]; simpl; [done|].
  rewrite string_length_app, IH. done.
Qed.

Lemma fmt_int_length x :
  String.length (fmt_int x) = (3 `max` String.length (pretty x))%nat.
Proof. unfold fmt_int. rewrite string_length_app, spaces_length. lia. Qed.

(** The integers from -99 to 999 are written with at most three
    characters (checked one by one). *)
Lemma pretty_three x :
  -99 ≤ x ≤ 999 → (String.length (pretty x) ≤ 3)%nat.
Proof.
  intros Hx.
  assert (forallb (λ x, (String.length (pretty x) <=? 3)%nat)
                  (seqZ (-99) 1099) = true) as Hall
    by (vm_compute; reflexivity).
  rewrite forallb_forall in Hall.
  apply Nat.leb_le, Hall, list_elem_of_In, elem_of_seqZ. lia.
Qed.

(** Length of [sep.join(l)] when the members of [l] all have [w]
    characters. *)
Lemma concat_length sep w l :
  Forall (λ t, String.length t = w) l → l ≠ [] →
  (String.length (String.concat sep l) + String.length sep
   = length l * (w + String.length sep))%nat.
Proof.
  induction 1 as [|t l Ht Hl IH]; intros Hne; [done|].
  destruct l as [|t' l'].
  { simpl. lia. }
  change (String.concat sep (t :: t' :: l'))
    with (t +:+ sep +:+ String.concat sep (t' :: l')).
  rewrite !string_length_app. specialize (IH ltac:(done)).
  simpl length in *. lia.
Qed.

(** X24: a number is printed on at least three characters, padded on the
    left and never cut: the field has the length of its digits (and sign)
    when that is more than three, it ends with them, and it has exactly
    three characters for every number from -99 to 999. *)
Theorem X24_fmt_int_pads_never_cuts (x : Z) :
  String.length (fmt_int x) = (3 `max` String.length (pretty x))%nat ∧
  (∃ k, fmt_int x = spaces k +:+ pretty x) ∧
  (-99 ≤ x ≤ 999 → String.length (fmt_int x) = 3%nat).
Proof.
  split; [apply fmt_int_length|]. split; [by eexists|].
  intros Hx. rewrite fmt_int_length. apply pretty_three in Hx. lia.
Qed.

(** X25: a vector of [k >= 1] numbers from -99 to 999 is printed on
    exactly [4k + 1] characters, whatever the numbers, so printed rows of
    equal length line up; the empty vector is printed as [[]]. *)
Theorem X25_fmt_vec_width (v : list Z) :
  Forall (λ x, -99 ≤ x ≤ 999) v →
  String.length (fmt_vec v)
  = (if decide (v = []) then 2 else 4 * length v + 1)%nat.
Proof.
  intros Hv. unfold fmt_vec. case_decide as Hnil; [by subst|].
  rewrite !string_length_app.
  pose proof (concat_length " " 3 (fmt_int <$> v)) as Hc.
  rewrite length_fmap in Hc. simpl in *.
  rewrite Nat.add_1_r in Hc. rewrite Nat.add_1_r.
  assert (S (String.length (String.concat " " (fmt_int <$> v)))
          = (length v * 4)%nat) as Hlen; [|lia].
  apply Hc; [|by destruct v].
  apply Forall_fmap. eapply Forall_impl; [exact Hv|].
  intros x Hx. simpl. rewrite fmt_int_length.
  apply pretty_three in Hx. lia.
Qed.

Lemma X25_fmt_vec_width_witness :
  String.length (fmt_vec [3; -3; 20])
  = if decide ([3; -3; 20] = ([] : list Z)) then 2%nat else 13%nat.
Proof.
  apply (X25_fmt_vec_width [3; -3; 20]). repeat constructor; lia.
Defined.

(** X26: a matrix of [r >= 1] rows of [k >= 1] numbers from -99 to 999 is
    printed on [r] lines of [4k + 3] characters each, joined by line
    feeds: [r * (4k + 4) - 1] characters in all. *)
Theorem X26_fmt_mat_size (mat : list (list Z)) (k : nat) :
  mat ≠ [] → (0 < k)%nat →
  Forall (λ row, length row = k ∧ Forall (λ x, -99 ≤ x ≤ 999) row) mat →
  Forall (λ row, String.length ("  " +:+ fmt_vec row) = (4 * k + 3)%nat) mat ∧
  (String.length (fmt_mat mat) + 1 = length mat * (4 * k + 4))%nat.
Proof.
  intros Hne Hk Hmat.
  assert (Forall (λ row, String.length ("  " +:+ fmt_vec row)
                         = (4 * k + 3)%nat) mat) as Hlines.
  { eapply Forall_impl; [exact Hmat|]. intros row [Hlen Hrow]. simpl.
    unfold fmt_vec. rewrite !string_length_app.
    pose proof (concat_length " " 3 (fmt_int <$> row)) as Hc.
    rewrite length_fmap in Hc. simpl in *.
    rewrite Nat.add_1_r in Hc. rewrite Nat.add_1_r.
    assert (S (String.length (String.concat " " (fmt_int <$> row)))
            = (length row * 4)%nat) as Hl; [|lia].
    apply Hc; [|destruct row; [simpl in Hlen; lia|done]].
    apply Forall_fmap. eapply Forall_impl; [exact Hrow|].
    intros x Hx. simpl. rewrite fmt_int_length.
    apply pretty_three in Hx. lia. }
  split; [done|]. unfold fmt_mat.
  pose proof (concat_length newline (4 * k + 3)
                ((λ row, "  " +:+ fmt_vec row) <$> mat)) as Hc.
  rewrite length_fmap in Hc. change (String.length newline) with 1%nat in Hc.
  rewrite Hc; [lia| |by destruct mat].
  by apply Forall_fmap.
Qed.

Lemma X26_fmt_mat_size_witness :
  Forall (λ row, String.length ("  " +:+ fmt_vec row) = (4 * 3 + 3)%nat)
         (max_need scenario_A) ∧
  (String.length (fmt_mat (max_need scenario_A)) + 1
   = length (max_need scenario_A) * (4 * 3 + 4))%nat.
Proof.
  apply (X26_fmt_mat_size (max_need scenario_A) 3).
  - discriminate.
  - lia.
  - repeat constructor; lia.
Defined.
